(** * S3Neo4jCSVLoader: staging graph rows as CSV objects in S3

    A shallow embedding of
    [databuilder/databuilder/loader/S3_neo4j_csv_loader.py].

    The loader keeps one dictionary, [_keys], from frozen sets of column
    names to integers; every other effect of [load] is a request to the
    object store or a call of the dataframe library.  The dictionary is a
    [gmap] keyed by [gset string]; the object store is an explicit world
    threaded through a state-and-exception monad, with a log of the
    requests that were issued. *)

From stdpp Require Import gmap strings list fin_maps pretty.

Open Scope string_scope.
Open Scope list_scope.

(** ** Rows *)

(** A serialized node or relationship: a Python [dict] from column name to
    scalar, kept in insertion order. *)
Definition Value := string.
Definition Row := list (string * Value).

(** [record_dict.keys()] *)
Definition dict_keys (record_dict : Row) : list string := map fst record_dict.

(** [record_dict.get(c)] *)
Fixpoint dict_get (c : string) (record_dict : Row) : option Value :=
  match record_dict with
  | [] => None
  | (k, v) :: rest => if decide (k = c) then Some v else dict_get c rest
  end.

(** [frozenset(xs)] *)
Definition frozenset (xs : list string) : gset string := list_to_set xs.

(** ** The signature-id dictionary *)

Module Keys.

(** [Dict[FrozenSet[str], int]] *)
Abbreviation t := (gmap (gset string) nat).

(** [d.setdefault(k, v)]: the value stored under [k] if there is one,
    otherwise [v], which is then stored under [k]. *)
Definition setdefault (d : t) (k : gset string) (v : nat) : nat * t :=
  match d !! k with
  | Some x => (x, d)
  | None => (v, <[k := v]> d)
  end.

(** [self._keys = {}] in [__init__]. *)
Definition init : t := ∅.

(** The integers handed out so far. *)
Definition ids (d : t) : list nat := snd <$> map_to_list d.

(** The invariant of [_keys]: the stored ids are below the size, every
    number below the size is stored, and no id is stored twice. *)
Record wf (keys : Keys.t) : Prop := {
  wf_bound : ∀ s i, keys !! s = Some i → i < size keys;
  wf_onto : ∀ i, i < size keys → ∃ s, keys !! s = Some i;
  wf_inj : ∀ s1 s2 i, keys !! s1 = Some i → keys !! s2 = Some i → s1 = s2;
}.

End Keys.

(** [_make_key]: the argument [len(self._keys)] is evaluated before
    [setdefault] runs. *)
Definition _make_key (keys : Keys.t) (record_dict : Row) : nat * Keys.t :=
  Keys.setdefault keys (frozenset (dict_keys record_dict)) (size keys).

(** A run of [_make_key] calls from a given dictionary, returning the ids in
    call order and the final dictionary. *)
Fixpoint make_keys (keys : Keys.t) (rows : list Row) : list nat * Keys.t :=
  match rows with
  | [] => ([], keys)
  | r :: rest =>
      let '(i, keys') := _make_key keys r in
      let '(js, keys'') := make_keys keys' rest in
      (i :: js, keys'')
  end.

(** ** Data frames *)

(** Modelled from the spec: the dataframe library (pandas) is an external
    collaborator and none of its code is in the repository.  A table is a
    header and its data rows; there is no index column, as every table is
    written with [index=False] and re-read from the header.  A cell is
    [None] where pandas holds NaN. *)
Module pd.

Record DataFrame := {
  columns : list string;
  rows : list (list (option Value));
}.

(** The cell of row [r] under column [c], for a row laid out along [cols]. *)
Fixpoint cell (c : string) (cols : list string) (r : list (option Value))
  : option Value :=
  match cols, r with
  | k :: cols', v :: r' => if decide (k = c) then v else cell c cols' r'
  | _, _ => None
  end.

(** A row re-laid out along the header [new]. *)
Definition reindex (old new : list string) (r : list (option Value))
  : list (option Value) :=
  (fun c => cell c old r) <$> new.

(** [pd.DataFrame.from_records(record_dict, index=[0])]: one data row, the
    header being the mapping's column names. *)
Definition from_records (record_dict : Row) : DataFrame :=
  {| columns := dict_keys record_dict;
     rows := [ (fun c => dict_get c record_dict) <$> dict_keys record_dict ] |}.

(** [df.append(df2, ignore_index=True)]: the rows of [df2] follow those of
    [df]; columns of [df2] unknown to [df] are added on the right and the
    cells nobody supplied are NaN. *)
Definition append (df df2 : DataFrame) : DataFrame :=
  let cols :=
    columns df ++ filter (fun c => c ∉ columns df) (columns df2) in
  {| columns := cols;
     rows := (reindex (columns df) cols <$> rows df)
             ++ (reindex (columns df2) cols <$> rows df2) |}.

End pd.

(** ** The object store *)

(** Modelled from the spec: the object-storage client (boto3, and s3fs
    underneath pandas) is external.  The store maps the address
    [s3://bucket/key] to an object; an object is a CSV table (its text is
    abstracted to the table it parses to) with an ACL.  Any request may
    fail: [faults] says which one and with which exception, be it the
    service that refuses the request or, for a read, the reader that cannot
    parse what it is sent.  Every request issued is appended to [log],
    failed or not. *)
Inductive Acl := private | public_read.

Record S3Object := {
  body : pd.DataFrame;
  acl : Acl;
}.

(** Exceptions: [botocore.exceptions.ClientError] with the value of
    [e.response['Error']['Code']], or an exception of any other class. *)
Inductive Exn :=
| ClientError (code : string)
| OtherException (name : string).

Inductive Request :=
| HeadObject (url : string)
| GetObject (url : string)
| PutObject (url : string) (df : pd.DataFrame)
| ListObjects (bucket prefix : string)
| PutObjectAcl (url : string) (a : Acl).

Record S3 := {
  objects : gmap string S3Object;
  faults : Request -> option Exn;
  log : list Request;
}.

(** The address of [key] in [bucket], as in
    ['s3://' + bucket + '/' + key]. *)
Definition s3_url (bucket key : string) : string :=
  "s3://" +:+ bucket +:+ "/" +:+ key.

(** ** The loader *)

(** The values [init] reads with [conf.get_string]. *)
Record ConfigTree := {
  node_s3_bucket : string;
  node_s3_prefix : string;
  relations_s3_prefix : string;
}.

(** The attributes of a loader that [load] reads or writes.
    ([_node_file_mapping], [_relation_file_mapping] and [_closer] are set in
    [__init__] and never used.) *)
Record S3Neo4jCSVLoader := {
  _keys : Keys.t;
  _s3_bucket : string;
  _node_s3_prefix : string;
  _relation_s3_prefix : string;
}.

(** [S3Neo4jCSVLoader()] followed by [init(conf)]. *)
Definition new (conf : ConfigTree) : S3Neo4jCSVLoader :=
  {| _keys := Keys.init;
     _s3_bucket := node_s3_bucket conf;
     _node_s3_prefix := node_s3_prefix conf;
     _relation_s3_prefix := relations_s3_prefix conf |}.

(** ** State and exceptions *)

Record State := {
  self : S3Neo4jCSVLoader;
  s3 : S3;
}.

(** A computation returns a value or raises; the state it leaves is kept
    in both cases, as Python does not undo mutations when unwinding. *)
Definition IO (A : Type) : Type := State -> (Exn + A) * State.

Definition ret {A} (a : A) : IO A := fun σ => (inr a, σ).

Definition bind {A B} (m : IO A) (f : A -> IO B) : IO B :=
  fun σ =>
    match m σ with
    | (inl e, σ') => (inl e, σ')
    | (inr a, σ') => f a σ'
    end.

Definition raise {A} (e : Exn) : IO A := fun σ => (inl e, σ).

(** [try: m  except ...: h e] *)
Definition try_except {A} (m : IO A) (h : Exn -> IO A) : IO A :=
  fun σ =>
    match m σ with
    | (inl e, σ') => h e σ'
    | (inr a, σ') => (inr a, σ')
    end.

#[global] Instance IO_ret : MRet IO := @ret.
#[global] Instance IO_bind : MBind IO := fun A B f m => bind m f.

Definition get_self : IO S3Neo4jCSVLoader := fun σ => (inr (self σ), σ).

Definition set_keys (keys : Keys.t) : IO unit :=
  fun σ =>
    (inr tt,
     {| self := {| _keys := keys;
                   _s3_bucket := _s3_bucket (self σ);
                   _node_s3_prefix := _node_s3_prefix (self σ);
                   _relation_s3_prefix := _relation_s3_prefix (self σ) |};
        s3 := s3 σ |}).

Definition get_objects : IO (gmap string S3Object) :=
  fun σ => (inr (objects (s3 σ)), σ).

Definition set_objects (objs : gmap string S3Object) : IO unit :=
  fun σ =>
    (inr tt,
     {| self := self σ;
        s3 := {| objects := objs;
                 faults := faults (s3 σ);
                 log := log (s3 σ) |} |}).

(** Issue a request: it is logged, and refused if the service says so. *)
Definition request (r : Request) : IO unit :=
  fun σ =>
    let σ' := {| self := self σ;
                 s3 := {| objects := objects (s3 σ);
                          faults := faults (s3 σ);
                          log := log (s3 σ) ++ [r] |} |} in
    match faults (s3 σ) r with
    | Some e => (inl e, σ')
    | None => (inr tt, σ')
    end.

(** [for x in xs: f x] *)
Fixpoint for_each {A} (xs : list A) (f : A -> IO unit) : IO unit :=
  match xs with
  | [] => ret tt
  | x :: rest => f x ;; for_each rest f
  end.

(** *** Calls into the storage client and the dataframe library *)

(** [s3.Object(bucket, key).load()]: a HEAD request.  For a missing object
    the client raises [ClientError] with code ["404"]. *)
Definition Object_load (bucket key : string) : IO unit :=
  request (HeadObject (s3_url bucket key)) ;;
  objs ← get_objects;
  match objs !! s3_url bucket key with
  | Some _ => ret tt
  | None => raise (ClientError "404")
  end.

(** [pd.read_csv(url)]: a GET request.  The read raises when the request
    fails (in the service, or in the reader on content it cannot parse:
    both are [faults] of the request) and when there is no object;
    otherwise it returns the table kept for the object.  How the reader
    re-types the cells of a text written by [to_csv] is left out: the
    table kept for an object is the table a read of it returns. *)
Definition read_csv (url : string) : IO pd.DataFrame :=
  request (GetObject url) ;;
  objs ← get_objects;
  match objs !! url with
  | Some o => ret (body o)
  | None => raise (OtherException "FileNotFoundError")
  end.

(** [df.to_csv(url, index=False)]: the object is replaced as a whole, and a
    replaced object starts with the default ACL. *)
Definition to_csv (df : pd.DataFrame) (url : string) : IO unit :=
  request (PutObject url df) ;;
  objs ← get_objects;
  set_objects (<[url := {| body := df; acl := private |}]> objs).

(** The addresses of the objects of [bucket] whose key starts with
    [prefix]. *)
Definition under_prefix (bucket prefix : string)
    (objs : gmap string S3Object) : list string :=
  filter (fun url => String.prefix (s3_url bucket prefix) url = true)
         (map_to_list objs).*1.

(** [s3.Bucket(bucket).objects.filter(Prefix=prefix)] *)
Definition objects_filter (bucket prefix : string) : IO (list string) :=
  request (ListObjects bucket prefix) ;;
  objs ← get_objects;
  ret (under_prefix bucket prefix objs).

(** [obj.Acl().put(ACL=a)] *)
Definition Acl_put (url : string) (a : Acl) : IO unit :=
  request (PutObjectAcl url a) ;;
  objs ← get_objects;
  set_objects (alter (fun o => {| body := body o; acl := a |}) url objs).

(** *** Methods *)

(** [_s3_obj_exists] returns [True], [False], or falls off the end of the
    [except] block and returns [None]; an exception that is not a
    [ClientError] is not caught. *)
Definition _s3_obj_exists {K : Type} (node_dict : Row) (key : K)
    (_node_dir file_suffix bucket_info : string) : IO (option bool) :=
  try_except
    (Object_load bucket_info (_node_dir +:+ file_suffix +:+ ".csv") ;;
     ret (Some true))
    (fun e =>
       match e with
       | ClientError code =>
           if decide (code = "404") then ret (Some false) else ret None
       | OtherException _ => raise e
       end).

Definition _get_s3_object {K : Type} (node_dict : Row) (key : K)
    (_s3_bucket_info _node_s3_prefix file_suffix : string) : IO unit :=
  found ← _s3_obj_exists node_dict key _node_s3_prefix file_suffix
             _s3_bucket_info;
  if decide (found = Some true) then
    df ← read_csv ("s3://" +:+ _s3_bucket_info +:+ "/" +:+ _node_s3_prefix
                    +:+ file_suffix +:+ ".csv");
    let df2 := pd.from_records node_dict in
    let df := pd.append df df2 in
    to_csv df ("s3://" +:+ _s3_bucket_info +:+ "/" +:+ _node_s3_prefix
               +:+ file_suffix +:+ ".csv")
  else
    let df := pd.from_records node_dict in
    to_csv df ("s3://" +:+ _s3_bucket_info +:+ "/" +:+ _node_s3_prefix
               +:+ file_suffix +:+ ".csv").

Definition update_acls (s3_bucket_name s3_prefix : string) : IO unit :=
  objs ← objects_filter s3_bucket_name s3_prefix;
  for_each objs (fun obj => Acl_put obj public_read).

(** The call [self._make_key(record_dict)]. *)
Definition call_make_key (record_dict : Row) : IO nat :=
  this ← get_self;
  let '(i, keys') := _make_key (_keys this) record_dict in
  set_keys keys' ;;
  ret i.

Definition get_scope : IO string := ret "loader.filesystem_csv_neo4j".

(** The graph model consumed by [load]: what [load] reads of a node and of
    a relationship, and the serializer ([neo4_serializer]) that turns each
    into a row. *)
Class GraphModel := {
  GraphNode : Type;
  GraphRelationship : Type;
  label : GraphNode -> string;
  start_label : GraphRelationship -> string;
  end_label : GraphRelationship -> string;
  type : GraphRelationship -> string;
  serialize_node : GraphNode -> Row;
  serialize_relationship : GraphRelationship -> Row;
}.

(** A [GraphSerializable]: [next_node()] and [next_relation()] hand out the
    elements of two finite sequences, then [None]. *)
Record GraphSerializable `{GraphModel} := {
  nodes : list GraphNode;
  relations : list GraphRelationship;
}.

Section Load.

Context `{GraphModel}.

(** The body of the [while node:] loop. *)
Definition load_node (node : GraphNode) : IO unit :=
  let node_dict := serialize_node node in
  sig ← call_make_key node_dict;
  let key := (label node, sig) in
  let file_suffix := fst key +:+ "_" +:+ pretty (snd key) in
  this ← get_self;
  _get_s3_object node_dict key (_s3_bucket this) (_node_s3_prefix this)
    file_suffix.

(** The body of the [while relation:] loop. *)
Definition load_relation (relation : GraphRelationship) : IO unit :=
  let relation_dict := serialize_relationship relation in
  sig ← call_make_key relation_dict;
  let key2 := (start_label relation, end_label relation, type relation, sig) in
  let file_suffix :=
    key2.1.1.1 +:+ "_" +:+ key2.1.1.2 +:+ "_" +:+ key2.1.2 in
  this ← get_self;
  _get_s3_object relation_dict key2 (_s3_bucket this)
    (_relation_s3_prefix this) file_suffix.

Definition load (csv_serializable : GraphSerializable) : IO unit :=
  for_each (nodes csv_serializable) load_node ;;
  this ← get_self;
  update_acls (_s3_bucket this) (_node_s3_prefix this) ;;
  for_each (relations csv_serializable) load_relation.

(** The id [load] gives the row of [node] when it processes it in [σ]. *)
Definition node_signature (node : GraphNode) (σ : State) : nat :=
  (_make_key (_keys (self σ)) (serialize_node node)).1.

End Load.


(** ** Reading the request log *)

(** Requests made for one row: existence check, read, write. *)
Definition is_row_request (r : Request) : bool :=
  match r with
  | HeadObject _ | GetObject _ | PutObject _ _ => true
  | _ => false
  end.

Definition is_read (r : Request) : bool :=
  match r with GetObject _ => true | _ => false end.

Definition is_write (r : Request) : bool :=
  match r with PutObject _ _ => true | _ => false end.

Definition is_acl_put (r : Request) : bool :=
  match r with PutObjectAcl _ _ => true | _ => false end.

(** Requests of an ACL pass: the listing and the per-object updates. *)
Definition is_acl_request (r : Request) : bool :=
  match r with
  | ListObjects _ _ | PutObjectAcl _ _ => true
  | _ => false
  end.

(** A row request addressed to [url]. *)
Definition object_request (url : string) (r : Request) : Prop :=
  match r with
  | HeadObject u | GetObject u | PutObject u _ => u = url
  | _ => False
  end.

Definition remote_reads (l : list Request) : list Request :=
  List.filter is_read l.

Definition remote_writes (l : list Request) : list Request :=
  List.filter is_write l.

(** The state after request [r] has been logged. *)
Definition logged (r : Request) (σ : State) : State :=
  {| self := self σ;
     s3 := {| objects := objects (s3 σ);
              faults := faults (s3 σ);
              log := log (s3 σ) ++ [r] |} |}.

(** [σ'] is reached from [σ] by issuing requests that all satisfy [P]; the
    configuration of the loader and the behaviour of the service are those
    of [σ]. *)
Record extends (P : Request → Prop) (σ σ' : State) : Prop := {
  ext_bucket : _s3_bucket (self σ') = _s3_bucket (self σ);
  ext_node_prefix : _node_s3_prefix (self σ') = _node_s3_prefix (self σ);
  ext_relation_prefix :
    _relation_s3_prefix (self σ') = _relation_s3_prefix (self σ);
  ext_faults : faults (s3 σ') = faults (s3 σ);
  ext_log : ∃ l, log (s3 σ') = log (s3 σ) ++ l ∧ Forall P l;
}.

(** Every run of [m] only issues requests satisfying [P]. *)
Definition emits {A} (P : Request → Prop) (m : IO A) : Prop :=
  ∀ σ, extends P σ (m σ).2.

(** The state after [self._keys] has been replaced by [keys]. *)
Definition with_keys (keys : Keys.t) (σ : State) : State :=
  {| self := {| _keys := keys;
                _s3_bucket := _s3_bucket (self σ);
                _node_s3_prefix := _node_s3_prefix (self σ);
                _relation_s3_prefix := _relation_s3_prefix (self σ) |};
     s3 := s3 σ |}.

(** The state after the object at [url] has been replaced by the table
    [df]. *)
Definition stored (url : string) (df : pd.DataFrame) (σ : State) : State :=
  {| self := self σ;
     s3 := {| objects :=
                <[url := {| body := df; acl := private |}]> (objects (s3 σ));
              faults := faults (s3 σ);
              log := log (s3 σ) |} |}.

(** ** File naming, as the specification words it *)

(** [<node_prefix><label>_<signature_id>.csv] *)
Definition node_object_key (node_prefix label : string) (signature_id : nat)
  : string :=
  node_prefix +:+ label +:+ "_" +:+ pretty signature_id +:+ ".csv".

(** [<relation_prefix><start_label>_<end_label>_<type>_<signature_id>.csv] *)
Definition relation_object_key (relation_prefix start_label end_label
    type : string) (signature_id : nat) : string :=
  relation_prefix +:+ start_label +:+ "_" +:+ end_label +:+ "_" +:+ type
  +:+ "_" +:+ pretty signature_id +:+ ".csv".

(** The address of the object the specification names for the row of
    [node], processed in [σ]. *)
Definition node_target `{GraphModel} (node : GraphNode) (σ : State)
  : string :=
  s3_url (_s3_bucket (self σ))
    (node_object_key (_node_s3_prefix (self σ)) (label node)
       (node_signature node σ)).

(** [m] never assigns an attribute of the loader. *)
Definition keeps_self {A} (m : IO A) : Prop := ∀ σ, self (m σ).2 = self σ.

(** ** A small graph model *)

(** Nodes and relationships that carry their serialized row, with a
    configuration and a few store states, for running [load]. *)
Module Demo.

Record Node := {
  node_label : string;
  node_row : Row;
}.

Record Relationship := {
  rel_start_label : string;
  rel_end_label : string;
  rel_type : string;
  rel_row : Row;
}.

#[export] Instance model : GraphModel := {|
  GraphNode := Node;
  GraphRelationship := Relationship;
  label := node_label;
  start_label := rel_start_label;
  end_label := rel_end_label;
  type := rel_type;
  serialize_node := node_row;
  serialize_relationship := rel_row;
|}.

Definition conf : ConfigTree :=
  {| node_s3_bucket := "bucket";
     node_s3_prefix := "nodes/";
     relations_s3_prefix := "relations/" |}.

Definition no_faults : Request → option Exn := λ _, None.

(** A new loader in front of an empty bucket. *)
Definition fresh : State :=
  {| self := new conf;
     s3 := {| objects := ∅; faults := no_faults; log := [] |} |}.

Definition table_a : Node :=
  {| node_label := "Table";
     node_row := [("KEY", "db://a"); ("LABEL", "Table"); ("name", "a")] |}.

Definition table_b : Node :=
  {| node_label := "Table";
     node_row := [("KEY", "db://b"); ("LABEL", "Table"); ("name", "b")] |}.

Definition table_c : Node :=
  {| node_label := "Table";
     node_row := [("KEY", "db://c"); ("LABEL", "Table"); ("name", "c")] |}.

(** Two relationships of one kind, the second with an extra column. *)
Definition column_x : Relationship :=
  {| rel_start_label := "Table";
     rel_end_label := "Column";
     rel_type := "COLUMN";
     rel_row := [("START_KEY", "db://a"); ("END_KEY", "db://a/x")] |}.

Definition column_y : Relationship :=
  {| rel_start_label := "Table";
     rel_end_label := "Column";
     rel_type := "COLUMN";
     rel_row := [("START_KEY", "db://a"); ("END_KEY", "db://a/y");
                 ("sort_order", "1")] |}.

Definition one_node (n : Node) : GraphSerializable :=
  {| nodes := [n]; relations := [] |}.

Definition empty_record : GraphSerializable :=
  {| nodes := []; relations := [] |}.

Definition two_relations : GraphSerializable :=
  {| nodes := []; relations := [column_x; column_y] |}.

Definition tables_and_column : GraphSerializable :=
  {| nodes := [table_a; table_b]; relations := [column_x] |}.

(** [nodes/Table_0.csv] as it is after [table_a] and [table_b] have been
    loaded by an earlier loader. *)
Definition stored_table : S3Object :=
  {| body :=
       {| pd.columns := ["KEY"; "LABEL"; "name"];
          pd.rows := [ [Some "db://a"; Some "Table"; Some "a"];
                       [Some "db://b"; Some "Table"; Some "b"] ] |};
     acl := public_read |}.

Definition populated_objects : gmap string S3Object :=
  {[ "s3://bucket/nodes/Table_0.csv" := stored_table ]}.

(** A new loader in front of that bucket. *)
Definition populated : State :=
  {| self := new conf;
     s3 := {| objects := populated_objects;
              faults := no_faults;
              log := [] |} |}.

(** A new loader in front of a bucket into which somebody else has put
    [nodes/manual.csv], with the default ACL. *)
Definition uploaded : State :=
  {| self := new conf;
     s3 := {| objects :=
                {[ "s3://bucket/nodes/manual.csv" :=
                     {| body := pd.from_records [("KEY", "db://m")];
                        acl := private |} ]};
              faults := no_faults;
              log := [] |} |}.

(** The populated bucket, with the service refusing the existence check of
    [nodes/Table_0.csv] with [code]. *)
Definition refusing_head (code : string) : State :=
  {| self := new conf;
     s3 := {| objects := populated_objects;
              faults := λ r,
                match r with
                | HeadObject url =>
                    if decide (url = "s3://bucket/nodes/Table_0.csv")
                    then Some (ClientError code) else None
                | _ => None
                end;
              log := [] |} |}.

(** The populated bucket, with every existence check failing with an
    exception that is not a [ClientError]. *)
Definition unreachable : State :=
  {| self := new conf;
     s3 := {| objects := populated_objects;
              faults := λ r,
                match r with
                | HeadObject _ => Some (OtherException "EndpointConnectionError")
                | _ => None
                end;
              log := [] |} |}.

End Demo.
(** ** What a run leaves in place *)

(** [σ'] has every object address of [σ], every recorded column set of [σ]
    under its id, and the invariant of [_keys] if [σ] has it. *)
Record keeps (σ σ' : State) : Prop := {
  keeps_objects :
    dom (objects (s3 σ)) ⊆@{gset string} dom (objects (s3 σ'));
  keeps_keys : _keys (self σ) ⊆ _keys (self σ');
  keeps_wf : Keys.wf (_keys (self σ)) → Keys.wf (_keys (self σ'));
}.

(** Only the object at [url] may differ between [σ] and [σ']; the loader
    and the behaviour of the service are the same. *)
Record frame (url : string) (σ σ' : State) : Prop := {
  frame_objects : delete url (objects (s3 σ')) = delete url (objects (s3 σ));
  frame_self : self σ' = self σ;
  frame_faults : faults (s3 σ') = faults (s3 σ);
}.

(** Every run of [m] relates the state it starts from to the state it
    leaves by [R]. *)
Definition respects {A} (R : State → State → Prop) (m : IO A) : Prop :=
  ∀ σ, R σ (m σ).2.

(** The object with the ACL set to [a]. *)
Definition with_acl (a : Acl) (o : S3Object) : S3Object :=
  {| body := body o; acl := a |}.

(** The bucket after every object under [prefix] has been made
    public-read. *)
Definition published (bucket prefix : string)
    (objs : gmap string S3Object) : gmap string S3Object :=
  map_imap
    (λ url o,
       Some (if String.prefix (s3_url bucket prefix) url
             then with_acl public_read o else o))
    objs.

(** A sequence of [load] calls on one loader, as a job makes them. *)
Definition loads `{GraphModel} (records : list GraphSerializable)
  : IO unit :=
  for_each records load.

(** A row request addressed to an object of [bucket] whose key starts
    with [prefix]. *)
Definition row_request_under (bucket prefix : string) (r : Request) : Prop :=
  match r with
  | HeadObject u | GetObject u | PutObject u _ =>
      String.prefix (s3_url bucket prefix) u = true
  | _ => False
  end.

(** ** Configuration *)

(** Modelled from the spec: the configuration library (pyhocon) is
    external.  A configuration is a flat mapping from option name to a
    string or a boolean; [with_fallback] fills the options the
    configuration lacks from the fallback; [get_string] raises for an
    option that is absent and renders a boolean in lower case. *)
Module pyhocon.

Inductive ConfigValue :=
| Str (s : string)
| Bool (b : bool).

Abbreviation ConfigTree := (gmap string ConfigValue).

(** [conf.with_fallback(fallback)] *)
Definition with_fallback (conf fallback : ConfigTree) : ConfigTree :=
  conf ∪ fallback.

(** [conf.get_string(key)] *)
Definition get_string (conf : ConfigTree) (key : string) : IO string :=
  match conf !! key with
  | Some (Str s) => ret s
  | Some (Bool b) => ret (if b then "true" else "false")
  | None => raise (OtherException "ConfigMissingException")
  end.

End pyhocon.

(** The config keys of the class. *)
Definition FORCE_CREATE_DIR : string := "force_create_directory".
Definition SHOULD_DELETE_CREATED_DIR : string := "delete_created_directories".
Definition NODE_S3_BUCKET : string := "node_s3_bucket".
Definition NODE_S3_PREFIX : string := "node_s3_prefix".
Definition RELATION_S3_PREFIX : string := "relations_s3_prefix".

Definition _DEFAULT_CONFIG : pyhocon.ConfigTree :=
  {[ SHOULD_DELETE_CREATED_DIR := pyhocon.Bool true;
     FORCE_CREATE_DIR := pyhocon.Bool false ]}.

(** Assignments to the three attributes [init] sets. *)
Definition set_s3_bucket (v : string) : IO unit :=
  fun σ =>
    (inr tt,
     {| self := {| _keys := _keys (self σ);
                   _s3_bucket := v;
                   _node_s3_prefix := _node_s3_prefix (self σ);
                   _relation_s3_prefix := _relation_s3_prefix (self σ) |};
        s3 := s3 σ |}).

Definition set_node_s3_prefix (v : string) : IO unit :=
  fun σ =>
    (inr tt,
     {| self := {| _keys := _keys (self σ);
                   _s3_bucket := _s3_bucket (self σ);
                   _node_s3_prefix := v;
                   _relation_s3_prefix := _relation_s3_prefix (self σ) |};
        s3 := s3 σ |}).

Definition set_relation_s3_prefix (v : string) : IO unit :=
  fun σ =>
    (inr tt,
     {| self := {| _keys := _keys (self σ);
                   _s3_bucket := _s3_bucket (self σ);
                   _node_s3_prefix := _node_s3_prefix (self σ);
                   _relation_s3_prefix := v |};
        s3 := s3 σ |}).

(** [init]: called on a loader, whose three attributes it assigns one
    after the other; before the first call they do not exist, and what the
    record holds for them then is never read. *)
Definition init (conf : pyhocon.ConfigTree) : IO unit :=
  let conf := pyhocon.with_fallback conf _DEFAULT_CONFIG in
  v ← pyhocon.get_string conf NODE_S3_BUCKET;
  set_s3_bucket v;;
  v ← pyhocon.get_string conf NODE_S3_PREFIX;
  set_node_s3_prefix v;;
  v ← pyhocon.get_string conf RELATION_S3_PREFIX;
  set_relation_s3_prefix v.

(** The three options [init] reads. *)
Definition required_keys : list string :=
  [NODE_S3_BUCKET; NODE_S3_PREFIX; RELATION_S3_PREFIX].

(** ** Configurations for the small graph model *)

Module DemoConf.

Import pyhocon.

(** The three required options. *)
Definition complete : ConfigTree :=
  {[ NODE_S3_BUCKET := Str "bucket";
     NODE_S3_PREFIX := Str "nodes/";
     RELATION_S3_PREFIX := Str "relations/" ]}.

(** The same, with the two flags set against their defaults and an
    option the loader does not know. *)
Definition with_flags : ConfigTree :=
  {[ NODE_S3_BUCKET := Str "bucket";
     NODE_S3_PREFIX := Str "nodes/";
     RELATION_S3_PREFIX := Str "relations/";
     FORCE_CREATE_DIR := Bool true;
     SHOULD_DELETE_CREATED_DIR := Bool false;
     "job.identifier" := Str "nightly" ]}.

(** No relationship prefix. *)
Definition without_relations : ConfigTree :=
  {[ NODE_S3_BUCKET := Str "bucket";
     NODE_S3_PREFIX := Str "nodes/" ]}.

End DemoConf.

(** ** A configuration with nested prefixes *)

Module DemoNested.

Import Demo.

(** The relationship prefix starts with the node prefix. *)
Definition conf : ConfigTree :=
  {| node_s3_bucket := "bucket";
     node_s3_prefix := "data/";
     relations_s3_prefix := "data/relations/" |}.

(** A new loader in front of an empty bucket. *)
Definition fresh : State :=
  {| self := new conf;
     s3 := {| objects := ∅; faults := no_faults; log := [] |} |}.

Definition one_relation : GraphSerializable :=
  {| nodes := []; relations := [column_x] |}.

End DemoNested.
(** * Properties *)

(** ** The signature-id dictionary *)

Module KeysFacts.

Lemma wf_init : Keys.wf Keys.init.
Proof.
  split; unfold Keys.init.
  - intros s i Hs. by rewrite lookup_empty in Hs.
  - intros i Hi. rewrite map_size_empty in Hi. lia.
  - intros s1 s2 i Hs. by rewrite lookup_empty in Hs.
Qed.

Lemma setdefault_seen (d : Keys.t) k v i :
  d !! k = Some i → Keys.setdefault d k v = (i, d).
Proof. intros Hk. unfold Keys.setdefault. by rewrite Hk. Qed.

Lemma setdefault_fresh (d : Keys.t) k v :
  d !! k = None → Keys.setdefault d k v = (v, <[k := v]> d).
Proof. intros Hk. unfold Keys.setdefault. by rewrite Hk. Qed.

Lemma wf_insert_fresh (keys : Keys.t) k :
  Keys.wf keys → keys !! k = None → Keys.wf (<[k := size keys]> keys).
Proof.
  intros [Hb Ho Hi] Hk. split.
  - intros s i. rewrite map_size_insert_None by done.
    rewrite lookup_insert. case_decide.
    + intros [= <-]. lia.
    + intros Hs. apply Hb in Hs. lia.
  - intros i. rewrite map_size_insert_None by done. intros Hlt.
    destruct (decide (i = size keys)) as [->|Hne].
    + exists k. by rewrite lookup_insert_eq.
    + destruct (Ho i) as [s Hs]; [lia|]. exists s.
      rewrite lookup_insert_ne; [done|]. intros <-. congruence.
  - intros s1 s2 i. rewrite !lookup_insert.
    repeat case_decide; subst; try done.
    + intros [= <-] Hs. apply Hb in Hs. lia.
    + intros Hs [= <-]. apply Hb in Hs. lia.
    + apply Hi.
Qed.

Lemma wf_make_key keys row : Keys.wf keys → Keys.wf (_make_key keys row).2.
Proof.
  intros Hwf. unfold _make_key, Keys.setdefault.
  destruct (keys !! _) eqn:Hk; simpl; [done|].
  by apply wf_insert_fresh.
Qed.

Lemma make_key_subseteq keys row : keys ⊆ (_make_key keys row).2.
Proof.
  unfold _make_key, Keys.setdefault.
  destruct (keys !! _) eqn:Hk; simpl; [done|].
  by apply insert_subseteq.
Qed.

Lemma wf_make_keys rows : ∀ keys, Keys.wf keys → Keys.wf (make_keys keys rows).2.
Proof.
  induction rows as [|r rest IH]; intros keys Hwf; simpl; [done|].
  destruct (_make_key keys r) as [i keys'] eqn:Hr.
  specialize (IH keys'). destruct (make_keys keys' rest) as [js keys''].
  simpl in *. apply IH.
  replace keys' with (_make_key keys r).2 by (by rewrite Hr).
  by apply wf_make_key.
Qed.

Lemma wf_ids keys : Keys.wf keys → Keys.ids keys ≡ₚ seq 0 (size keys).
Proof.
  intros [Hb Ho Hi]. unfold Keys.ids. apply NoDup_Permutation.
  - apply NoDup_fmap_2_strong; [|apply NoDup_map_to_list].
    intros [s1 i1] [s2 i2] H1 H2 Heq. simpl in Heq. subst i2.
    apply elem_of_map_to_list in H1, H2. f_equal. eauto.
  - apply NoDup_seq.
  - intros i. rewrite elem_of_seq, list_elem_of_fmap. split.
    + intros [[s j] [-> Hs]]. apply elem_of_map_to_list in Hs.
      apply Hb in Hs. simpl. lia.
    + intros [_ Hlt]. destruct (Ho i) as [s Hs]; [lia|].
      exists (s, i). split; [done|]. by apply elem_of_map_to_list.
Qed.

End KeysFacts.

(** ** The state-and-exception monad *)

Section Monad.

Context {A B : Type}.

Lemma bind_raise (m : IO A) (f : A → IO B) σ e σ' :
  m σ = (inl e, σ') → (m ≫= f) σ = (inl e, σ').
Proof. intros Hm. unfold mbind, IO_bind, bind. by rewrite Hm. Qed.

Lemma bind_return (m : IO A) (f : A → IO B) σ a σ' :
  m σ = (inr a, σ') → (m ≫= f) σ = f a σ'.
Proof. intros Hm. unfold mbind, IO_bind, bind. by rewrite Hm. Qed.

End Monad.

Lemma request_run r σ :
  request r σ =
    (match faults (s3 σ) r with Some e => inl e | None => inr tt end,
     logged r σ).
Proof. unfold request, logged. by destruct (faults (s3 σ) r). Qed.

(** ** Requests issued by each operation *)

Section Emits.

Implicit Types P Q : Request → Prop.

Lemma extends_refl P σ : extends P σ σ.
Proof. split; try done. exists []. by rewrite app_nil_r. Qed.

Lemma extends_trans P σ1 σ2 σ3 :
  extends P σ1 σ2 → extends P σ2 σ3 → extends P σ1 σ3.
Proof.
  intros [Hb1 Hn1 Hr1 Hf1 (l1 & Hl1 & HP1)] [Hb2 Hn2 Hr2 Hf2 (l2 & Hl2 & HP2)].
  split; try congruence.
  exists (l1 ++ l2). split.
  - by rewrite Hl2, Hl1, app_assoc.
  - by apply Forall_app.
Qed.

Lemma extends_mono P Q σ σ' :
  (∀ r, P r → Q r) → extends P σ σ' → extends Q σ σ'.
Proof.
  intros HPQ [Hb Hn Hr Hf (l & Hl & HP)]. split; try done.
  exists l. split; [done|]. by eapply Forall_impl.
Qed.

Lemma extends_logged P r σ : P r → extends P σ (logged r σ).
Proof.
  intros HP. split; try done. exists [r]. split; [done|].
  by apply Forall_singleton.
Qed.

Lemma emits_mono {A} P Q (m : IO A) :
  (∀ r, P r → Q r) → emits P m → emits Q m.
Proof. intros HPQ Hm σ. eapply extends_mono; [done|]. apply Hm. Qed.

Lemma emits_ret {A} P (a : A) : emits P (ret a).
Proof. intros σ. apply extends_refl. Qed.

Lemma emits_raise {A} P e : emits P (raise (A:=A) e).
Proof. intros σ. apply extends_refl. Qed.

Lemma emits_bind {A B} P (m : IO A) (f : A → IO B) :
  emits P m → (∀ a, emits P (f a)) → emits P (m ≫= f).
Proof.
  intros Hm Hf σ. unfold mbind, IO_bind, bind.
  specialize (Hm σ). destruct (m σ) as [[e|a] σ']; simpl in *; [done|].
  eapply extends_trans; [done|]. apply Hf.
Qed.

Lemma emits_try_except {A} P (m : IO A) (h : Exn → IO A) :
  emits P m → (∀ e, emits P (h e)) → emits P (try_except m h).
Proof.
  intros Hm Hh σ. unfold try_except.
  specialize (Hm σ). destruct (m σ) as [[e|a] σ']; simpl in *; [|done].
  eapply extends_trans; [done|]. apply Hh.
Qed.

Lemma emits_request P r : P r → emits P (request r).
Proof. intros HP σ. rewrite request_run. simpl. by apply extends_logged. Qed.

Lemma emits_get_self P : emits P get_self.
Proof. intros σ. apply extends_refl. Qed.

Lemma emits_get_objects P : emits P get_objects.
Proof. intros σ. apply extends_refl. Qed.

Lemma emits_set_objects P objs : emits P (set_objects objs).
Proof.
  intros σ. split; try done. exists []. by rewrite app_nil_r.
Qed.

Lemma emits_set_keys P keys : emits P (set_keys keys).
Proof.
  intros σ. split; try done. exists []. by rewrite app_nil_r.
Qed.

Lemma emits_for_each {A} P (xs : list A) (f : A → IO unit) :
  (∀ x, emits P (f x)) → emits P (for_each xs f).
Proof.
  intros Hf. induction xs as [|x rest IH]; simpl.
  - apply emits_ret.
  - apply emits_bind; [apply Hf | by intros _].
Qed.

End Emits.

Create HintDb emits.

#[local] Hint Resolve emits_ret emits_raise emits_get_self emits_get_objects
  emits_set_objects emits_set_keys : emits.

Lemma emits_Object_load bucket key :
  emits (object_request (s3_url bucket key)) (Object_load bucket key).
Proof.
  unfold Object_load. apply emits_bind; [by apply emits_request|intros _].
  apply emits_bind; [auto with emits|intros objs].
  destruct (objs !! _); auto with emits.
Qed.

Lemma emits_read_csv url : emits (object_request url) (read_csv url).
Proof.
  unfold read_csv. apply emits_bind; [by apply emits_request|intros _].
  apply emits_bind; [auto with emits|intros objs].
  destruct (objs !! _); auto with emits.
Qed.

Lemma emits_to_csv df url : emits (object_request url) (to_csv df url).
Proof.
  unfold to_csv. apply emits_bind; [by apply emits_request|intros _].
  apply emits_bind; auto with emits.
Qed.

Lemma emits_s3_obj_exists {K} row (key : K) dir suffix bucket :
  emits (object_request (s3_url bucket (dir +:+ suffix +:+ ".csv")))
        (_s3_obj_exists row key dir suffix bucket).
Proof.
  unfold _s3_obj_exists. apply emits_try_except.
  - apply emits_bind; [apply emits_Object_load|auto with emits].
  - intros [code|name]; [case_decide|]; auto with emits.
Qed.

Lemma emits_get_s3_object {K} row (key : K) bucket prefix suffix :
  emits (object_request (s3_url bucket (prefix +:+ suffix +:+ ".csv")))
        (_get_s3_object row key bucket prefix suffix).
Proof.
  unfold _get_s3_object.
  apply emits_bind; [apply emits_s3_obj_exists|intros found].
  case_decide.
  - apply emits_bind; [apply emits_read_csv|intros df].
    apply emits_to_csv.
  - apply emits_to_csv.
Qed.

Lemma emits_Acl_put url a : emits is_acl_put (Acl_put url a).
Proof.
  unfold Acl_put. apply emits_bind; [by apply emits_request|intros _].
  apply emits_bind; auto with emits.
Qed.

Lemma emits_call_make_key P row : emits P (call_make_key row).
Proof.
  unfold call_make_key. apply emits_bind; [auto with emits|intros this].
  destruct (_make_key _ _) as [i keys'].
  apply emits_bind; auto with emits.
Qed.

Lemma object_request_row url r : object_request url r → is_row_request r.
Proof. by destruct r. Qed.

(** ** What each call returns *)

Lemma set_keys_run keys σ : set_keys keys σ = (inr tt, with_keys keys σ).
Proof. done. Qed.

Lemma call_make_key_run row σ :
  call_make_key row σ =
    (inr (_make_key (_keys (self σ)) row).1,
     with_keys (_make_key (_keys (self σ)) row).2 σ).
Proof.
  unfold call_make_key, mbind, IO_bind, bind, get_self. simpl.
  by destruct (_make_key _ _).
Qed.

Lemma to_csv_run df url σ :
  to_csv df url σ =
    match faults (s3 σ) (PutObject url df) with
    | Some e => (inl e, logged (PutObject url df) σ)
    | None => (inr tt, stored url df (logged (PutObject url df) σ))
    end.
Proof.
  unfold to_csv, mbind, IO_bind, bind. rewrite request_run.
  by destruct (faults _ _).
Qed.

Section Exists.

Context {K : Type} (row : Row) (key : K) (dir suffix bucket : string).

Let url := s3_url bucket (dir +:+ suffix +:+ ".csv").

Lemma s3_obj_exists_present σ o :
  faults (s3 σ) (HeadObject url) = None →
  objects (s3 σ) !! url = Some o →
  _s3_obj_exists row key dir suffix bucket σ
  = (inr (Some true), logged (HeadObject url) σ).
Proof.
  intros Hf Ho. unfold _s3_obj_exists, try_except, Object_load.
  unfold mbind, IO_bind, bind. rewrite request_run. fold url.
  rewrite Hf. simpl. fold url. by rewrite Ho.
Qed.

Lemma s3_obj_exists_absent σ :
  faults (s3 σ) (HeadObject url) = None →
  objects (s3 σ) !! url = None →
  _s3_obj_exists row key dir suffix bucket σ
  = (inr (Some false), logged (HeadObject url) σ).
Proof.
  intros Hf Ho. unfold _s3_obj_exists, try_except, Object_load.
  unfold mbind, IO_bind, bind. rewrite request_run. fold url.
  rewrite Hf. simpl. fold url. by rewrite Ho.
Qed.

Lemma s3_obj_exists_client_error σ code :
  faults (s3 σ) (HeadObject url) = Some (ClientError code) →
  _s3_obj_exists row key dir suffix bucket σ
  = (inr (if decide (code = "404") then Some false else None),
     logged (HeadObject url) σ).
Proof.
  intros Hf. unfold _s3_obj_exists, try_except, Object_load.
  unfold mbind, IO_bind, bind. rewrite request_run. fold url.
  rewrite Hf. by case_decide.
Qed.

Lemma s3_obj_exists_other_exception σ name :
  faults (s3 σ) (HeadObject url) = Some (OtherException name) →
  _s3_obj_exists row key dir suffix bucket σ
  = (inl (OtherException name), logged (HeadObject url) σ).
Proof.
  intros Hf. unfold _s3_obj_exists, try_except, Object_load.
  unfold mbind, IO_bind, bind. rewrite request_run. fold url.
  by rewrite Hf.
Qed.

End Exists.

Lemma string_app_assoc (s1 s2 s3 : string) :
  (s1 +:+ s2) +:+ s3 = s1 +:+ s2 +:+ s3.
Proof.
  induction s1 as [|c s1 IH]; [reflexivity|].
  change (String c ((s1 +:+ s2) +:+ s3) = String c (s1 +:+ s2 +:+ s3)).
  by rewrite IH.
Qed.

Lemma read_csv_run url σ o :
  faults (s3 σ) (GetObject url) = None →
  objects (s3 σ) !! url = Some o →
  read_csv url σ = (inr (body o), logged (GetObject url) σ).
Proof.
  intros Hf Ho. unfold read_csv, mbind, IO_bind, bind.
  rewrite request_run, Hf. simpl. by rewrite Ho.
Qed.

Section GetObject.

Context {K : Type} (row : Row) (key : K) (bucket prefix suffix : string).

Let url := s3_url bucket (prefix +:+ suffix +:+ ".csv").

(** Whatever the existence check answers other than [True], a one-row
    table is written. *)
Lemma get_s3_object_create σ found :
  _s3_obj_exists row key prefix suffix bucket σ
  = (inr found, logged (HeadObject url) σ) →
  found ≠ Some true →
  _get_s3_object row key bucket prefix suffix σ
  = to_csv (pd.from_records row) url (logged (HeadObject url) σ).
Proof.
  intros Hex Hne. unfold _get_s3_object.
  erewrite bind_return by exact Hex. by rewrite decide_False.
Qed.

Lemma get_s3_object_append σ o :
  faults (s3 σ) (HeadObject url) = None →
  faults (s3 σ) (GetObject url) = None →
  objects (s3 σ) !! url = Some o →
  _get_s3_object row key bucket prefix suffix σ
  = to_csv (pd.append (body o) (pd.from_records row)) url
      (logged (GetObject url) (logged (HeadObject url) σ)).
Proof.
  intros Hh Hg Ho. unfold _get_s3_object.
  erewrite bind_return by (by eapply s3_obj_exists_present).
  rewrite decide_True by done.
  erewrite bind_return; [done|].
  by apply read_csv_run.
Qed.

Lemma get_s3_object_abort σ name :
  faults (s3 σ) (HeadObject url) = Some (OtherException name) →
  _get_s3_object row key bucket prefix suffix σ
  = (inl (OtherException name), logged (HeadObject url) σ).
Proof.
  intros Hf. unfold _get_s3_object.
  erewrite bind_raise; [done|]. by apply s3_obj_exists_other_exception.
Qed.

End GetObject.

(** ** Data frames *)

Lemma cell_fmap c (f : string → option Value) (l : list string) :
  pd.cell c l (f <$> l) = if decide (c ∈ l) then f c else None.
Proof.
  induction l as [|k l IH].
  - destruct (decide (c ∈ [])) as [Hin|_]; [|done].
    by apply elem_of_nil in Hin.
  - change (pd.cell c (k :: l) (f <$> k :: l))
      with (if decide (k = c) then f k else pd.cell c l (f <$> l)).
    rewrite IH. destruct (decide (k = c)) as [->|Hne].
    + rewrite decide_True; [done|]. apply list_elem_of_here.
    + destruct (decide (c ∈ l)) as [Hin|Hout].
      * rewrite decide_True; [done|]. by apply list_elem_of_further.
      * rewrite decide_False; [done|].
        rewrite elem_of_cons. intros [->|?]; done.
Qed.

Lemma dict_get_None c (row : Row) : c ∉ dict_keys row → dict_get c row = None.
Proof.
  unfold dict_keys. induction row as [|[k v] rest IH]; simpl; [done|].
  rewrite elem_of_cons. intros Hc.
  rewrite decide_False by (intros ->; apply Hc; by left).
  apply IH. intros Hin. apply Hc. by right.
Qed.

Lemma cell_from_record c (row : Row) :
  pd.cell c (dict_keys row) ((λ k, dict_get k row) <$> dict_keys row)
  = dict_get c row.
Proof.
  rewrite cell_fmap. case_decide; [done|].
  symmetry. by apply dict_get_None.
Qed.

(** Appending a record adds one row at the end; read under the new header,
    that row is the record. *)
Lemma append_from_records_rows df (row : Row) :
  pd.rows (pd.append df (pd.from_records row))
  = (pd.reindex (pd.columns df) (pd.columns (pd.append df (pd.from_records row)))
       <$> pd.rows df)
    ++ [ (λ c, dict_get c row)
           <$> pd.columns (pd.append df (pd.from_records row)) ].
Proof.
  unfold pd.append. simpl. f_equal. f_equal.
  unfold pd.reindex. apply list_fmap_ext. intros i c _.
  apply cell_from_record.
Qed.

Lemma append_from_records_length df (row : Row) :
  length (pd.rows (pd.append df (pd.from_records row)))
  = S (length (pd.rows df)).
Proof.
  rewrite append_from_records_rows, length_app, length_fmap. simpl. lia.
Qed.

Lemma append_from_records_last df (row : Row) :
  last (pd.rows (pd.append df (pd.from_records row)))
  = Some ((λ c, dict_get c row)
            <$> pd.columns (pd.append df (pd.from_records row))).
Proof. rewrite append_from_records_rows. apply last_snoc. Qed.

(** ** The existence check comes first *)

Section HeadFirst.

Context {K : Type} (row : Row) (key : K) (bucket prefix suffix : string).

Let url := s3_url bucket (prefix +:+ suffix +:+ ".csv").

Lemma s3_obj_exists_state σ :
  (_s3_obj_exists row key prefix suffix bucket σ).2
  = logged (HeadObject url) σ.
Proof.
  destruct (faults (s3 σ) (HeadObject url)) as [[code|name]|] eqn:Hf.
  - by erewrite s3_obj_exists_client_error.
  - by erewrite s3_obj_exists_other_exception.
  - destruct (objects (s3 σ) !! url) as [o|] eqn:Ho.
    + by erewrite s3_obj_exists_present.
    + by erewrite s3_obj_exists_absent.
Qed.

Lemma get_s3_object_head_first σ :
  ∃ l, log (s3 (_get_s3_object row key bucket prefix suffix σ).2)
       = log (s3 σ) ++ HeadObject url :: l
     ∧ Forall (object_request url) l.
Proof.
  pose proof (s3_obj_exists_state σ) as Hst.
  unfold _get_s3_object.
  destruct (_s3_obj_exists row key prefix suffix bucket σ)
    as [[e|found] σ'] eqn:Hex; simpl in Hst; subst σ'.
  { erewrite bind_raise by exact Hex. exists []. by split. }
  erewrite bind_return by exact Hex.
  assert (Hrest : ∀ m : IO unit, emits (object_request url) m →
    ∃ l, log (s3 (m (logged (HeadObject url) σ)).2)
         = log (s3 σ) ++ HeadObject url :: l
       ∧ Forall (object_request url) l).
  { intros m Hm. destruct (Hm (logged (HeadObject url) σ)) as [_ _ _ _ Hl].
    destruct Hl as (l & Hl & HP). exists l. split; [|done].
    rewrite Hl. simpl. by rewrite <- app_assoc. }
  case_decide; apply Hrest.
  - apply emits_bind; [apply emits_read_csv|intros df; apply emits_to_csv].
  - apply emits_to_csv.
Qed.

End HeadFirst.

Lemma extends_with_keys P keys σ : extends P σ (with_keys keys σ).
Proof. split; try done. exists []. by rewrite app_nil_r. Qed.

Lemma emits_update_acls bucket prefix :
  emits is_acl_request (update_acls bucket prefix).
Proof.
  unfold update_acls, objects_filter.
  apply emits_bind.
  - apply emits_bind; [by apply emits_request|intros _].
    apply emits_bind; auto with emits.
  - intros objs. apply emits_for_each. intros url.
    eapply emits_mono; [|apply emits_Acl_put]. by intros [].
Qed.

(** ** [load] *)

Section LoadFacts.

Context `{GraphModel}.

Lemma load_node_run node σ :
  let row := serialize_node node in
  let sig := (_make_key (_keys (self σ)) row).1 in
  load_node node σ
  = _get_s3_object row (label node, sig) (_s3_bucket (self σ))
      (_node_s3_prefix (self σ)) (label node +:+ "_" +:+ pretty sig)
      (with_keys (_make_key (_keys (self σ)) row).2 σ).
Proof.
  intros row sig. unfold load_node.
  erewrite bind_return by apply call_make_key_run. done.
Qed.

Lemma load_relation_run relation σ :
  let row := serialize_relationship relation in
  let sig := (_make_key (_keys (self σ)) row).1 in
  load_relation relation σ
  = _get_s3_object row
      (start_label relation, end_label relation, type relation, sig)
      (_s3_bucket (self σ)) (_relation_s3_prefix (self σ))
      (start_label relation +:+ "_" +:+ end_label relation +:+ "_"
       +:+ type relation)
      (with_keys (_make_key (_keys (self σ)) row).2 σ).
Proof.
  intros row sig. unfold load_relation.
  erewrite bind_return by apply call_make_key_run. done.
Qed.

Lemma emits_load_node node : emits is_row_request (load_node node).
Proof.
  intros σ. rewrite load_node_run. eapply extends_trans.
  - apply extends_with_keys.
  - eapply extends_mono; [apply object_request_row|].
    apply emits_get_s3_object.
Qed.

Lemma emits_load_relation relation :
  emits is_row_request (load_relation relation).
Proof.
  intros σ. rewrite load_relation_run. eapply extends_trans.
  - apply extends_with_keys.
  - eapply extends_mono; [apply object_request_row|].
    apply emits_get_s3_object.
Qed.

End LoadFacts.

(** ** Attributes of the loader are only assigned by [_make_key] *)

Section KeepsSelf.

Lemma keeps_self_ret {A} (a : A) : keeps_self (ret a).
Proof. done. Qed.

Lemma keeps_self_raise {A} e : keeps_self (raise (A:=A) e).
Proof. done. Qed.

Lemma keeps_self_bind {A B} (m : IO A) (f : A → IO B) :
  keeps_self m → (∀ a, keeps_self (f a)) → keeps_self (m ≫= f).
Proof.
  intros Hm Hf σ. unfold mbind, IO_bind, bind. specialize (Hm σ).
  destruct (m σ) as [[e|a] σ']; simpl in *; [done|].
  by rewrite Hf.
Qed.

Lemma keeps_self_try_except {A} (m : IO A) (h : Exn → IO A) :
  keeps_self m → (∀ e, keeps_self (h e)) → keeps_self (try_except m h).
Proof.
  intros Hm Hh σ. unfold try_except. specialize (Hm σ).
  destruct (m σ) as [[e|a] σ']; simpl in *; [|done].
  by rewrite Hh.
Qed.

Lemma keeps_self_request r : keeps_self (request r).
Proof. intros σ. by rewrite request_run. Qed.

Lemma keeps_self_get_objects : keeps_self get_objects.
Proof. done. Qed.

Lemma keeps_self_set_objects objs : keeps_self (set_objects objs).
Proof. done. Qed.

Lemma keeps_self_to_csv df url : keeps_self (to_csv df url).
Proof.
  unfold to_csv. apply keeps_self_bind; [apply keeps_self_request|intros _].
  apply keeps_self_bind; [apply keeps_self_get_objects|intros objs].
  apply keeps_self_set_objects.
Qed.

Lemma keeps_self_read_csv url : keeps_self (read_csv url).
Proof.
  unfold read_csv. apply keeps_self_bind; [apply keeps_self_request|intros _].
  apply keeps_self_bind; [apply keeps_self_get_objects|intros objs].
  destruct (objs !! url); [apply keeps_self_ret|apply keeps_self_raise].
Qed.

Lemma keeps_self_get_s3_object {K} row (key : K) bucket prefix suffix :
  keeps_self (_get_s3_object row key bucket prefix suffix).
Proof.
  unfold _get_s3_object. apply keeps_self_bind.
  - intros σ. by rewrite s3_obj_exists_state.
  - intros found. case_decide; [|apply keeps_self_to_csv].
    apply keeps_self_bind; [apply keeps_self_read_csv|intros df].
    apply keeps_self_to_csv.
Qed.

End KeepsSelf.

(** ** Helpers for the claims about [load] *)

Lemma node_key_assoc (prefix lab sig : string) :
  prefix +:+ (lab +:+ "_" +:+ sig) +:+ ".csv"
  = prefix +:+ lab +:+ "_" +:+ sig +:+ ".csv".
Proof. by rewrite !string_app_assoc. Qed.

Lemma to_csv_log df url σ :
  log (s3 (to_csv df url σ).2) = log (s3 σ) ++ [PutObject url df].
Proof. rewrite to_csv_run. by destruct (faults _ _). Qed.

Lemma acl_requests_no_transfer (l : list Request) :
  Forall is_acl_request l → remote_reads l = [] ∧ remote_writes l = [].
Proof.
  unfold remote_reads, remote_writes.
  induction 1 as [|r l Hr _ [IHr IHw]]; [done|].
  destruct r; simpl in *; done.
Qed.

Section LoadHelpers.

Context `{GraphModel}.

(** With one node and no relationship, what follows the node's row is the
    ACL pass and nothing else. *)
Lemma load_one_node_tail node σ :
  ∃ acl_log,
    log (s3 (load {| nodes := [node]; relations := [] |} σ).2)
    = log (s3 (load_node node σ).2) ++ acl_log
    ∧ Forall is_acl_request acl_log.
Proof.
  unfold load. simpl.
  destruct (load_node node σ) as [[e|[]] σ1] eqn:Hn; simpl.
  - erewrite bind_raise; [|by erewrite bind_raise].
    exists []. by rewrite app_nil_r.
  - erewrite bind_return; [|by erewrite bind_return].
    assert (Hrest : emits is_acl_request
      (this ← get_self;
       update_acls (_s3_bucket this) (_node_s3_prefix this);;
       ret tt)).
    { apply emits_bind; [auto with emits|intros this].
      apply emits_bind; [apply emits_update_acls|auto with emits]. }
    destruct (Hrest σ1) as [_ _ _ _ (l & Hl & HP)]. by exists l.
Qed.

End LoadHelpers.

(** ** The ACL pass *)

Lemma objects_filter_run bucket prefix σ :
  objects_filter bucket prefix σ =
    match faults (s3 σ) (ListObjects bucket prefix) with
    | Some e => (inl e, logged (ListObjects bucket prefix) σ)
    | None =>
        (inr (under_prefix bucket prefix (objects (s3 σ))),
         logged (ListObjects bucket prefix) σ)
    end.
Proof.
  unfold objects_filter, mbind, IO_bind, bind. rewrite request_run.
  by destruct (faults _ _).
Qed.

(** A pass starts with the listing; what follows are ACL updates. *)
Lemma update_acls_log bucket prefix σ :
  ∃ acl_log,
    log (s3 (update_acls bucket prefix σ).2)
    = log (s3 σ) ++ ListObjects bucket prefix :: acl_log
    ∧ Forall is_acl_put acl_log.
Proof.
  unfold update_acls.
  destruct (faults (s3 σ) (ListObjects bucket prefix)) as [e|] eqn:Hf.
  - erewrite bind_raise by (by rewrite objects_filter_run, Hf).
    exists []. by split.
  - erewrite bind_return by (by rewrite objects_filter_run, Hf).
    destruct (emits_for_each is_acl_put
                (under_prefix bucket prefix (objects (s3 σ)))
                (λ obj, Acl_put obj public_read)
                (λ obj, emits_Acl_put obj public_read)
                (logged (ListObjects bucket prefix) σ))
      as [_ _ _ _ (l & Hl & HP)].
    exists l. split; [|done]. rewrite Hl. simpl. by rewrite <- app_assoc.
Qed.

(** When the service refuses no request of the pass, every address listed
    gets its update, in the order listed. *)
Lemma for_each_acl_put_run (urls : list string) :
  ∀ σ, (∀ r, is_acl_request r → faults (s3 σ) r = None) →
  ∃ σ',
    for_each urls (λ obj, Acl_put obj public_read) σ = (inr tt, σ')
    ∧ log (s3 σ')
      = log (s3 σ) ++ ((λ u, PutObjectAcl u public_read) <$> urls)
    ∧ faults (s3 σ') = faults (s3 σ).
Proof.
  induction urls as [|u rest IH]; intros σ Hf.
  - exists σ. simpl. by rewrite app_nil_r.
  - assert (Hput : ∃ σ1, Acl_put u public_read σ = (inr tt, σ1)
               ∧ log (s3 σ1) = log (s3 σ) ++ [PutObjectAcl u public_read]
               ∧ faults (s3 σ1) = faults (s3 σ)).
    { unfold Acl_put, mbind, IO_bind, bind. rewrite request_run.
      rewrite Hf by done. simpl. eexists. split; [done|]. by split. }
    destruct Hput as (σ1 & Hrun & Hlog & Hfaults).
    destruct (IH σ1) as (σ' & Hrun' & Hlog' & Hfaults').
    { intros r Hr. rewrite Hfaults. by apply Hf. }
    exists σ'. split; [|split].
    + simpl. by erewrite bind_return by exact Hrun.
    + rewrite Hlog', Hlog. simpl. by rewrite <- app_assoc.
    + congruence.
Qed.

Lemma Acl_put_run url a σ :
  Acl_put url a σ =
    match faults (s3 σ) (PutObjectAcl url a) with
    | Some e => (inl e, logged (PutObjectAcl url a) σ)
    | None =>
        (inr tt,
         {| self := self σ;
            s3 := {| objects :=
                       alter (λ o, {| body := body o; acl := a |}) url
                         (objects (s3 σ));
                     faults := faults (s3 σ);
                     log := log (s3 σ) ++ [PutObjectAcl url a] |} |})
    end.
Proof.
  unfold Acl_put, mbind, IO_bind, bind. rewrite request_run.
  by destruct (faults _ _).
Qed.

(** Whatever the service answers, the updates of a pass go to the
    addresses listed, in the order listed, up to the first update that is
    refused; a pass that returns has updated them all. *)
Lemma for_each_acl_put_log (urls : list string) :
  ∀ σ, ∃ updated not_reached,
    log (s3 (for_each urls (λ obj, Acl_put obj public_read) σ).2)
    = log (s3 σ) ++ ((λ u, PutObjectAcl u public_read) <$> updated)
    ∧ urls = updated ++ not_reached
    ∧ ((for_each urls (λ obj, Acl_put obj public_read) σ).1 = inr tt
       → not_reached = []).
Proof.
  induction urls as [|u rest IH]; intros σ.
  - exists [], []. simpl. by rewrite app_nil_r.
  - simpl.
    destruct (Acl_put u public_read σ) as [[e|[]] σ1] eqn:Hput.
    + erewrite bind_raise by exact Hput.
      exists [u], rest. simpl. split; [|by split].
      rewrite Acl_put_run in Hput. destruct (faults _ _); [|done].
      by injection Hput as _ <-.
    + erewrite bind_return by exact Hput.
      destruct (IH σ1) as (updated & not_reached & Hlog & Hurls & Hret).
      exists (u :: updated), not_reached. split; [|split].
      * rewrite Hlog. rewrite Acl_put_run in Hput.
        destruct (faults _ _); [done|]. injection Hput as <-. simpl.
        by rewrite <- app_assoc.
      * by rewrite Hurls.
      * exact Hret.
Qed.

(** A pass is one listing followed by the updates of the objects the
    listing returned, all of them when the pass returns. *)
Lemma update_acls_pass bucket prefix σ :
  ∃ updated not_reached,
    log (s3 (update_acls bucket prefix σ).2)
    = log (s3 σ) ++ ListObjects bucket prefix
                    :: ((λ u, PutObjectAcl u public_read) <$> updated)
    ∧ under_prefix bucket prefix (objects (s3 σ)) = updated ++ not_reached
    ∧ ((update_acls bucket prefix σ).1 = inr tt → not_reached = []).
Proof.
  unfold update_acls.
  destruct (faults (s3 σ) (ListObjects bucket prefix)) as [e|] eqn:Hf.
  - erewrite bind_raise by (by rewrite objects_filter_run, Hf).
    exists [], (under_prefix bucket prefix (objects (s3 σ))). by split.
  - erewrite bind_return by (by rewrite objects_filter_run, Hf).
    destruct (for_each_acl_put_log
                (under_prefix bucket prefix (objects (s3 σ)))
                (logged (ListObjects bucket prefix) σ))
      as (updated & not_reached & Hlog & Hurls & Hret).
    exists updated, not_reached. split; [|by split].
    rewrite Hlog. simpl. by rewrite <- app_assoc.
Qed.

Lemma update_acls_unrefused bucket prefix σ :
  (∀ r, is_acl_request r → faults (s3 σ) r = None) →
  (update_acls bucket prefix σ).1 = inr tt.
Proof.
  intros Hf.
  destruct (for_each_acl_put_run
              (under_prefix bucket prefix (objects (s3 σ)))
              (logged (ListObjects bucket prefix) σ))
    as (σ' & Hrun & _); [done|].
  unfold update_acls. erewrite bind_return; [by rewrite Hrun|].
  rewrite objects_filter_run. by rewrite Hf.
Qed.

(** ** Row requests go under the prefix of their loop *)

Lemma prefix_app (s t : string) : String.prefix s (s +:+ t) = true.
Proof.
  induction s as [|a s IH]; [by destruct t|].
  change (String.prefix (String a s) (String a (s +:+ t)) = true).
  simpl. by destruct (Ascii.ascii_dec a a).
Qed.

Lemma s3_url_app (bucket key rest : string) :
  s3_url bucket (key +:+ rest) = s3_url bucket key +:+ rest.
Proof. unfold s3_url. by rewrite !string_app_assoc. Qed.

Lemma object_request_under bucket prefix rest r :
  object_request (s3_url bucket (prefix +:+ rest)) r →
  row_request_under bucket prefix r.
Proof.
  destruct r; simpl; try done; intros ->;
    rewrite s3_url_app; apply prefix_app.
Qed.

Lemma get_s3_object_under {K} row (key : K) bucket prefix suffix σ :
  ∃ l, log (s3 (_get_s3_object row key bucket prefix suffix σ).2)
       = log (s3 σ) ++ l
     ∧ Forall (row_request_under bucket prefix) l.
Proof.
  destruct (get_s3_object_head_first row key bucket prefix suffix σ)
    as (l & Hl & HP).
  exists (HeadObject (s3_url bucket (prefix +:+ suffix +:+ ".csv")) :: l).
  split; [done|]. apply Forall_cons. split.
  - by apply (object_request_under _ _ (suffix +:+ ".csv")).
  - eapply Forall_impl; [exact HP|]. intros r.
    apply (object_request_under _ _ (suffix +:+ ".csv")).
Qed.

(** A loop whose body keeps the bucket and the prefix, and sends its
    requests under them, sends all its requests under them. *)
Lemma for_each_under {A} (f : A → IO unit)
    (get_prefix : S3Neo4jCSVLoader → string) (xs : list A) :
  (∀ x σ, _s3_bucket (self (f x σ).2) = _s3_bucket (self σ)
          ∧ get_prefix (self (f x σ).2) = get_prefix (self σ)) →
  (∀ x σ, ∃ l, log (s3 (f x σ).2) = log (s3 σ) ++ l
             ∧ Forall (row_request_under (_s3_bucket (self σ))
                         (get_prefix (self σ))) l) →
  ∀ σ, ∃ l, log (s3 (for_each xs f σ).2) = log (s3 σ) ++ l
          ∧ Forall (row_request_under (_s3_bucket (self σ))
                      (get_prefix (self σ))) l.
Proof.
  intros Hcfg Hrows. induction xs as [|x rest IH]; intros σ.
  - exists []. simpl. by rewrite app_nil_r.
  - simpl. destruct (Hrows x σ) as (l & Hl & HP).
    destruct (Hcfg x σ) as [Hb Hp].
    destruct (f x σ) as [[e|[]] σ1] eqn:Hx; simpl in *.
    + erewrite bind_raise by exact Hx. by exists l.
    + erewrite bind_return by exact Hx.
      destruct (IH σ1) as (l' & Hl' & HP').
      rewrite Hb, Hp in HP'.
      exists (l ++ l'). split.
      * rewrite Hl', Hl. by rewrite <- app_assoc.
      * by apply Forall_app.
Qed.

Section RowsUnder.

Context `{GraphModel}.

Lemma node_rows_under (node_list : list GraphNode) σ :
  ∃ l, log (s3 (for_each node_list load_node σ).2) = log (s3 σ) ++ l
     ∧ Forall (row_request_under (_s3_bucket (self σ))
                 (_node_s3_prefix (self σ))) l.
Proof.
  apply (for_each_under load_node _node_s3_prefix).
  - intros node σ'. by destruct (emits_load_node node σ').
  - intros node σ'. rewrite load_node_run.
    apply (get_s3_object_under _ _ _ _ _ (with_keys _ σ')).
Qed.

Lemma relation_rows_under (relation_list : list GraphRelationship) σ :
  ∃ l, log (s3 (for_each relation_list load_relation σ).2) = log (s3 σ) ++ l
     ∧ Forall (row_request_under (_s3_bucket (self σ))
                 (_relation_s3_prefix (self σ))) l.
Proof.
  apply (for_each_under load_relation _relation_s3_prefix).
  - intros relation σ'. by destruct (emits_load_relation relation σ').
  - intros relation σ'. rewrite load_relation_run.
    apply (get_s3_object_under _ _ _ _ _ (with_keys _ σ')).
Qed.

End RowsUnder.

(** * The claims *)

(** C8. [get_scope] returns the literal string
    ["loader.filesystem_csv_neo4j"] from every state of the loader and of
    the store, and leaves that state as it found it. *)
Theorem get_scope_constant (σ : State) :
  get_scope σ = (inr "loader.filesystem_csv_neo4j", σ).
Proof. reflexivity. Qed.

(** C3. [_make_key] looks the frozen set of the row's column names up in
    [_keys].  A set that is recorded keeps its id and the dictionary is
    returned as it was.  A set that is not recorded gets the current size of
    the dictionary as its id, and the dictionary returned has exactly that
    one entry more.  The first id handed out by a new loader is 0.  The
    node loop and the relationship loop of [load] both pass the one
    attribute [_keys] through [_make_key]. *)
Theorem make_key_assignment :
  (∀ (keys : Keys.t) (row : Row),
     let cols := frozenset (dict_keys row) in
     match keys !! cols with
     | Some i => _make_key keys row = (i, keys)
     | None =>
         _make_key keys row = (size keys, <[cols := size keys]> keys)
         ∧ (_make_key keys row).2 !! cols = Some (size keys)
         ∧ size (_make_key keys row).2 = S (size keys)
         ∧ (∀ s, s ≠ cols → (_make_key keys row).2 !! s = keys !! s)
     end)
  ∧ (∀ (conf : ConfigTree) (row : Row),
       (_make_key (_keys (new conf)) row).1 = 0)
  ∧ (∀ (G : GraphModel) (node : GraphNode) (σ : State),
       _keys (self (load_node node σ).2)
       = (_make_key (_keys (self σ)) (serialize_node node)).2)
  ∧ (∀ (G : GraphModel) (relation : GraphRelationship) (σ : State),
       _keys (self (load_relation relation σ).2)
       = (_make_key (_keys (self σ)) (serialize_relationship relation)).2).
Proof.
  split; [|split; [|split]].
  - intros keys row cols. unfold _make_key. fold cols.
    destruct (keys !! cols) as [i|] eqn:Hk.
    + by apply KeysFacts.setdefault_seen.
    + rewrite KeysFacts.setdefault_fresh by done. simpl.
      split; [done|]. split; [apply lookup_insert_eq|].
      split; [by apply map_size_insert_None|].
      intros s Hs. by apply lookup_insert_ne.
  - intros conf row. done.
  - intros G node σ. rewrite load_node_run.
    by rewrite keeps_self_get_s3_object.
  - intros G relation σ. rewrite load_relation_run.
    by rewrite keeps_self_get_s3_object.
Qed.

(** C10. Starting from the empty dictionary of a new loader, after any
    sequence of [_make_key] calls the ids stored are, up to order, exactly
    0, 1, ..., size-1, each once.  From such a dictionary a call on a
    recorded column set returns the dictionary unchanged, and neither one
    call nor a further run of calls removes or changes an entry. *)
Theorem keys_invariant (rows : list Row) :
  let keys := (make_keys Keys.init rows).2 in
  Keys.ids keys ≡ₚ seq 0 (size keys)
  ∧ (∀ row : Row,
       match keys !! frozenset (dict_keys row) with
       | Some _ => (_make_key keys row).2 = keys
       | None => True
       end)
  ∧ (∀ row : Row, keys ⊆ (_make_key keys row).2)
  ∧ (∀ more : list Row, keys ⊆ (make_keys keys more).2).
Proof.
  intros keys. split; [|split; [|split]].
  - apply KeysFacts.wf_ids, KeysFacts.wf_make_keys, KeysFacts.wf_init.
  - intros row. destruct (keys !! _) as [i|] eqn:Hk; [|done].
    unfold _make_key. by erewrite KeysFacts.setdefault_seen.
  - intros row. apply KeysFacts.make_key_subseteq.
  - intros more. generalize keys. clear keys.
    induction more as [|r rest IH]; intros keys; simpl; [done|].
    pose proof (KeysFacts.make_key_subseteq keys r) as Hr.
    destruct (_make_key keys r) as [i keys'].
    specialize (IH keys'). destruct (make_keys keys' rest) as [js keys''].
    simpl in *. by etrans.
Qed.

Section LoadClaims.

Context `{GraphModel}.

(** C7. For every node row that [load] processes, the requests made for
    the row (the existence check first, then the read and the write, if
    any) are all addressed to the object whose key is
    [<node_prefix><label>_<signature_id>.csv], made of the node's label
    and of the id that [_make_key] gives the column names of the
    serialized node. *)
Theorem load_node_object_key (node : GraphNode) (σ : State) :
  let sig := (_make_key (_keys (self σ)) (serialize_node node)).1 in
  let url :=
    s3_url (_s3_bucket (self σ))
      (node_object_key (_node_s3_prefix (self σ)) (label node) sig) in
  ∃ l, log (s3 (load_node node σ).2) = log (s3 σ) ++ HeadObject url :: l
     ∧ Forall (object_request url) l.
Proof.
  intros sig url. rewrite load_node_run. fold sig.
  unfold url, node_object_key. rewrite <- node_key_assoc.
  destruct (get_s3_object_head_first (serialize_node node) (label node, sig)
              (_s3_bucket (self σ)) (_node_s3_prefix (self σ))
              (label node +:+ "_" +:+ pretty sig)
              (with_keys (_make_key (_keys (self σ)) (serialize_node node)).2
                 σ))
    as (l & Hl & HP).
  exists l. split; [exact Hl|exact HP].
Qed.

(** C4. For a record with exactly one node (and no relationship) whose
    target object does not exist, the existence check being answered,
    [load] issues the existence check, then one write and no read, and
    after them only requests of the ACL pass.  The table written is the
    record of the node: its header is the column names of the serialized
    node and it has one data row. *)
Theorem load_one_new_node (node : GraphNode) (σ : State) :
  let row := serialize_node node in
  let url := node_target node σ in
  let df := pd.from_records row in
  faults (s3 σ) (HeadObject url) = None →
  objects (s3 σ) !! url = None →
  ∃ acl_log,
    let requests := HeadObject url :: PutObject url df :: acl_log in
    log (s3 (load {| nodes := [node]; relations := [] |} σ).2)
    = log (s3 σ) ++ requests
    ∧ Forall is_acl_request acl_log
    ∧ remote_writes requests = [PutObject url df]
    ∧ remote_reads requests = []
    ∧ pd.columns df = dict_keys row
    ∧ pd.rows df = [ (λ c, dict_get c row) <$> dict_keys row ].
Proof.
  intros row url df Hf Ho.
  destruct (load_one_node_tail node σ) as (acl_log & Hlog & Hacl).
  exists acl_log. cbn zeta.
  destruct (acl_requests_no_transfer _ Hacl) as [Hr Hw].
  split; [|split; [done|split; [|split; [|done]]]].
  - rewrite Hlog, load_node_run. fold row.
    set (σ1 := with_keys _ σ).
    revert Hf Ho. unfold url, node_target, node_signature, node_object_key.
    fold row. rewrite <- node_key_assoc. intros Hf Ho.
    erewrite get_s3_object_create;
      [|by apply s3_obj_exists_absent|done].
    rewrite to_csv_log. simpl. by rewrite <- !app_assoc.
  - unfold remote_writes in *. simpl. by rewrite Hw.
  - unfold remote_reads in *. simpl. by rewrite Hr.
Qed.

(** C5. For a record with exactly one node (and no relationship) whose
    target object holds a table, the existence check and the read being
    answered, [load] issues the existence check, then one read followed by
    one write, and after them only requests of the ACL pass.  The table
    written has one row more than the table read, and its last row, read
    under the header written, is the serialized node. *)
Theorem load_one_node_appends (node : GraphNode) (σ : State) (o : S3Object)
    (N : nat) :
  let row := serialize_node node in
  let url := node_target node σ in
  let df := pd.append (body o) (pd.from_records row) in
  faults (s3 σ) (HeadObject url) = None →
  faults (s3 σ) (GetObject url) = None →
  objects (s3 σ) !! url = Some o →
  length (pd.rows (body o)) = N →
  ∃ acl_log,
    let requests :=
      HeadObject url :: GetObject url :: PutObject url df :: acl_log in
    log (s3 (load {| nodes := [node]; relations := [] |} σ).2)
    = log (s3 σ) ++ requests
    ∧ Forall is_acl_request acl_log
    ∧ remote_reads requests = [GetObject url]
    ∧ remote_writes requests = [PutObject url df]
    ∧ length (pd.rows df) = N + 1
    ∧ last (pd.rows df) = Some ((λ c, dict_get c row) <$> pd.columns df).
Proof.
  intros row url df Hh Hg Ho HN.
  destruct (load_one_node_tail node σ) as (acl_log & Hlog & Hacl).
  exists acl_log. cbn zeta.
  destruct (acl_requests_no_transfer _ Hacl) as [Hr Hw].
  split; [|split; [done|split; [|split; [|split]]]].
  - rewrite Hlog, load_node_run. fold row.
    set (σ1 := with_keys _ σ).
    revert Hh Hg Ho.
    unfold df, url, node_target, node_signature, node_object_key.
    fold row. rewrite <- node_key_assoc. intros Hh Hg Ho.
    erewrite get_s3_object_append by done.
    rewrite to_csv_log. simpl. by rewrite <- !app_assoc.
  - unfold remote_reads in *. simpl. by rewrite Hr.
  - unfold remote_writes in *. simpl. by rewrite Hw.
  - unfold df. rewrite append_from_records_length. lia.
  - apply append_from_records_last.
Qed.

(** C6, as amended.  A [load] whose node loop runs to its end starts the
    ACL pass exactly once: the log of the call is the requests of the node
    loop, which are row requests for objects under the node prefix, then
    one listing of the node prefix, then one public-read update for each
    object stored under the node prefix when the node loop ended, in the
    order listed, then the requests of the relationship loop, which are
    row requests for objects under the relationship prefix.  The updates
    are all there when [load] returns and when the service refuses no
    request of the pass; a pass cut short by a refusal leaves out the
    objects after the refused one, and no relationship row follows it.  A
    [load] whose node loop is ended by an exception raises it, having
    issued the requests of the node loop only: no pass is started. *)
Theorem acl_pass_between_loops (csv_serializable : GraphSerializable)
    (σ : State) :
  let bucket := _s3_bucket (self σ) in
  let node_prefix := _node_s3_prefix (self σ) in
  let relation_prefix := _relation_s3_prefix (self σ) in
  let after_nodes := for_each (nodes csv_serializable) load_node σ in
  let stored_there :=
    under_prefix bucket node_prefix (objects (s3 after_nodes.2)) in
  ∃ node_log,
    log (s3 after_nodes.2) = log (s3 σ) ++ node_log
    ∧ Forall (row_request_under bucket node_prefix) node_log
    ∧ match after_nodes.1 with
      | inl e => load csv_serializable σ = (inl e, after_nodes.2)
      | inr _ =>
          ∃ updated not_reached relation_log,
            log (s3 (load csv_serializable σ).2)
            = log (s3 σ) ++ node_log
              ++ ListObjects bucket node_prefix
                 :: ((λ u, PutObjectAcl u public_read) <$> updated)
                 ++ relation_log
            ∧ stored_there = updated ++ not_reached
            ∧ ((load csv_serializable σ).1 = inr tt → not_reached = [])
            ∧ ((∀ r, is_acl_request r → faults (s3 σ) r = None)
               → not_reached = [])
            ∧ (not_reached ≠ [] → relation_log = [])
            ∧ Forall (row_request_under bucket relation_prefix) relation_log
      end.
Proof.
  intros bucket node_prefix relation_prefix after_nodes stored_there.
  destruct (node_rows_under (nodes csv_serializable) σ)
    as (node_log & Hnl & HnP).
  exists node_log. split; [exact Hnl|]. split; [exact HnP|].
  pose proof (emits_for_each is_row_request (nodes csv_serializable)
                load_node emits_load_node σ) as Hext.
  unfold stored_there. clear stored_there. fold after_nodes in Hnl, Hext.
  destruct after_nodes as [[e|[]] σ1] eqn:Hnodes; simpl in *.
  { unfold load. by erewrite bind_raise by exact Hnodes. }
  destruct Hext as [Hb Hp Hr Hfaults _].
  unfold load. erewrite bind_return by exact Hnodes.
  erewrite (bind_return get_self) by reflexivity.
  rewrite Hb, Hp. fold bucket node_prefix.
  destruct (update_acls_pass bucket node_prefix σ1)
    as (updated & not_reached & Hal & Hstored & Hall).
  pose proof (update_acls_unrefused bucket node_prefix σ1) as Hun.
  pose proof (emits_update_acls bucket node_prefix σ1) as Hacl_ext.
  destruct (update_acls bucket node_prefix σ1) as [[e|[]] σ2] eqn:Hacl;
    simpl in *.
  - erewrite bind_raise by exact Hacl.
    exists updated, not_reached, []. simpl.
    split; [|split; [done|split; [done|split; [|by split]]]].
    + rewrite Hal, Hnl, app_nil_r, <- app_assoc. done.
    + intros Hf. exfalso.
      assert (Hne : inl e = inr tt :> Exn + unit); [|done].
      apply Hun. intros r Hacl_r. rewrite Hfaults. by apply Hf.
  - erewrite bind_return by exact Hacl.
    destruct Hacl_ext as [Hb2 _ Hr2 _ _].
    destruct (relation_rows_under (relations csv_serializable) σ2)
      as (relation_log & Hrl & HrP).
    rewrite Hb2, Hr2, Hb, Hr in HrP. fold bucket relation_prefix in HrP.
    exists updated, not_reached, relation_log.
    rewrite (Hall eq_refl) in *.
    split; [|split; [done|split; [done|split; [done|split; [done|done]]]]].
    rewrite Hrl, Hal, Hnl. by rewrite <- !app_assoc.
Qed.

(** C9, as amended.  For a record with no node and no relationship, the
    service refusing no request of the ACL pass, [load] returns normally
    having issued no read and no write: it issues the listing of the node
    prefix once, and one ACL update for each object stored under that
    prefix, none exactly when nothing is stored there. *)
Theorem load_empty_record (σ : State) :
  (∀ r, is_acl_request r → faults (s3 σ) r = None) →
  let bucket := _s3_bucket (self σ) in
  let prefix := _node_s3_prefix (self σ) in
  let stored_there := under_prefix bucket prefix (objects (s3 σ)) in
  let requests :=
    ListObjects bucket prefix
    :: ((λ u, PutObjectAcl u public_read) <$> stored_there) in
  (load {| nodes := []; relations := [] |} σ).1 = inr tt
  ∧ log (s3 (load {| nodes := []; relations := [] |} σ).2)
    = log (s3 σ) ++ requests
  ∧ remote_reads requests = []
  ∧ remote_writes requests = [].
Proof.
  intros Hf bucket prefix stored_there requests.
  assert (Hacl : Forall is_acl_request requests).
  { apply Forall_cons. split; [done|].
    apply Forall_fmap, Forall_true. by intros u. }
  destruct (acl_requests_no_transfer _ Hacl) as [Hr Hw].
  destruct (for_each_acl_put_run stored_there
              (logged (ListObjects bucket prefix) σ))
    as (σ' & Hrun & Hlog & _); [done|].
  assert (Hload : load {| nodes := []; relations := [] |} σ = (inr tt, σ')).
  { unfold load. simpl.
    erewrite (bind_return (ret tt)) by reflexivity.
    erewrite (bind_return get_self) by reflexivity.
    erewrite bind_return; [reflexivity|].
    unfold update_acls. fold bucket prefix.
    erewrite bind_return; [exact Hrun|].
    rewrite objects_filter_run. by rewrite Hf. }
  rewrite Hload. simpl. split; [done|]. split; [|done].
  rewrite Hlog. simpl. by rewrite <- app_assoc.
Qed.

(** With no node and no relationship no read and no write is issued,
    whatever the service answers. *)
Lemma load_empty_record_no_transfer (σ : State) :
  ∃ requests,
    log (s3 (load {| nodes := []; relations := [] |} σ).2)
    = log (s3 σ) ++ requests
    ∧ remote_reads requests = [] ∧ remote_writes requests = [].
Proof.
  assert (Hm : emits is_acl_request (load {| nodes := []; relations := [] |})).
  { unfold load. simpl. apply emits_bind; [auto with emits|intros _].
    apply emits_bind; [auto with emits|intros this].
    apply emits_bind; [apply emits_update_acls|auto with emits]. }
  destruct (Hm σ) as [_ _ _ _ (l & Hl & HP)].
  exists l. split; [done|]. by apply acl_requests_no_transfer.
Qed.

(** An exception in the node loop ends [load] there: no ACL pass, no
    relationship row. *)
Lemma load_aborted_in_nodes (csv_serializable : GraphSerializable) σ e σ1 :
  for_each (nodes csv_serializable) load_node σ = (inl e, σ1) →
  load csv_serializable σ = (inl e, σ1).
Proof. intros Hn. unfold load. by erewrite bind_raise. Qed.

(** The key of the object a relationship row goes to, as [load_relation]
    builds it: the signature id is not part of it. *)
Lemma load_relation_object_key (relation : GraphRelationship) (σ : State) :
  let url :=
    s3_url (_s3_bucket (self σ))
      (_relation_s3_prefix (self σ) +:+ start_label relation +:+ "_"
       +:+ end_label relation +:+ "_" +:+ type relation +:+ ".csv") in
  ∃ l, log (s3 (load_relation relation σ).2)
       = log (s3 σ) ++ HeadObject url :: l
     ∧ Forall (object_request url) l.
Proof.
  intros url. rewrite load_relation_run.
  set (sig := (_make_key _ _).1).
  assert (Hurl : url = s3_url (_s3_bucket (self σ))
    (_relation_s3_prefix (self σ)
     +:+ (start_label relation +:+ "_" +:+ end_label relation +:+ "_"
          +:+ type relation) +:+ ".csv")).
  { unfold url. by rewrite !string_app_assoc. }
  rewrite Hurl.
  destruct (get_s3_object_head_first (serialize_relationship relation)
              (start_label relation, end_label relation, type relation, sig)
              (_s3_bucket (self σ)) (_relation_s3_prefix (self σ))
              (start_label relation +:+ "_" +:+ end_label relation +:+ "_"
               +:+ type relation)
              (with_keys
                 (_make_key (_keys (self σ))
                    (serialize_relationship relation)).2 σ))
    as (l & Hl & HP).
  exists l. split; [exact Hl|exact HP].
Qed.

End LoadClaims.

(** * Runs on the small graph model *)

Section Runs.

Import Demo.

(** Loading [table_a], then [table_b], into the empty bucket leaves
    [populated_objects]. *)
Example populated_by_two_loads :
  objects (s3 (load (one_node table_b) (load (one_node table_a) fresh).2).2)
  = populated_objects.
Proof. vm_compute. reflexivity. Qed.

(** The order of the columns does not matter to [_make_key]; the set
    does. *)
Example make_key_unordered :
  (make_keys Keys.init
     [ [("KEY", "a"); ("LABEL", "Table")];
       [("LABEL", "Table"); ("KEY", "b")];
       [("KEY", "c"); ("LABEL", "Table"); ("name", "n")];
       [("KEY", "d"); ("LABEL", "User")] ]).1
  = [0; 0; 1; 0].
Proof. vm_compute. reflexivity. Qed.

(** C1. Two relationships with the same start label, end label and type
    but different columns get the signature ids 0 and 1, and yet both rows
    are written to the one object [relations/Table_Column_COLUMN.csv]: the
    second write holds both rows under the union of the headers.  Neither
    write goes to the key the naming rule gives,
    [relations/Table_Column_COLUMN_0.csv] and
    [relations/Table_Column_COLUMN_1.csv]. *)
Theorem relation_rows_share_one_object :
  (make_keys Keys.init [rel_row column_x; rel_row column_y]).1 = [0; 1]
  ∧ remote_writes (log (s3 (load two_relations fresh).2))
    = [ PutObject "s3://bucket/relations/Table_Column_COLUMN.csv"
          {| pd.columns := ["START_KEY"; "END_KEY"];
             pd.rows := [ [Some "db://a"; Some "db://a/x"] ] |};
        PutObject "s3://bucket/relations/Table_Column_COLUMN.csv"
          {| pd.columns := ["START_KEY"; "END_KEY"; "sort_order"];
             pd.rows := [ [Some "db://a"; Some "db://a/x"; None];
                          [Some "db://a"; Some "db://a/y"; Some "1"] ] |} ]
  ∧ relation_object_key "relations/" "Table" "Column" "COLUMN" 0
    = "relations/Table_Column_COLUMN_0.csv"
  ∧ relation_object_key "relations/" "Table" "Column" "COLUMN" 1
    = "relations/Table_Column_COLUMN_1.csv"
  ∧ (dom (objects (s3 (load two_relations fresh).2)) : gset string)
    = {[ "s3://bucket/relations/Table_Column_COLUMN.csv" ]}.
Proof. vm_compute. repeat split. Qed.

(** C2. The existence check of [nodes/Table_0.csv], which holds two rows,
    is refused with a [ClientError] whose code is ["403"].  [load] does not
    raise: it returns normally, having replaced the object by a table with
    the new row alone.  The same happens with the code ["404"]; only an
    exception that is not a [ClientError] reaches the caller. *)
Theorem refused_existence_check_is_swallowed :
  (load (one_node table_c) (refusing_head "403")).1 = inr tt
  ∧ log (s3 (load (one_node table_c) (refusing_head "403")).2)
    = [ HeadObject "s3://bucket/nodes/Table_0.csv";
        PutObject "s3://bucket/nodes/Table_0.csv"
          (pd.from_records (node_row table_c));
        ListObjects "bucket" "nodes/";
        PutObjectAcl "s3://bucket/nodes/Table_0.csv" public_read ]
  ∧ pd.rows <$> (body <$> objects (s3 (refusing_head "403"))
                            !! "s3://bucket/nodes/Table_0.csv")
    = Some [ [Some "db://a"; Some "Table"; Some "a"];
             [Some "db://b"; Some "Table"; Some "b"] ]
  ∧ pd.rows <$> (body <$> objects
                   (s3 (load (one_node table_c) (refusing_head "403")).2)
                   !! "s3://bucket/nodes/Table_0.csv")
    = Some [ [Some "db://c"; Some "Table"; Some "c"] ]
  ∧ (load (one_node table_c) (refusing_head "404")).1 = inr tt
  ∧ log (s3 (load (one_node table_c) (refusing_head "404")).2)
    = log (s3 (load (one_node table_c) (refusing_head "403")).2)
  ∧ (load (one_node table_c) unreachable).1
    = inl (OtherException "EndpointConnectionError")
  ∧ log (s3 (load (one_node table_c) unreachable).2)
    = [ HeadObject "s3://bucket/nodes/Table_0.csv" ].
Proof. vm_compute. repeat split. Qed.

(** C9, as stated, fails.  With no node and no relationship, the ACL pass
    still reaches the object somebody else has put under the node prefix:
    one ACL update is issued and the object, private before, is
    public-read after. *)
Lemma empty_record_acl_pass_reaches_stored_object :
  List.filter is_acl_put (log (s3 (load empty_record uploaded).2))
  = [ PutObjectAcl "s3://bucket/nodes/manual.csv" public_read ]
  ∧ acl <$> objects (s3 uploaded) !! "s3://bucket/nodes/manual.csv"
    = Some private
  ∧ acl <$> objects (s3 (load empty_record uploaded).2)
              !! "s3://bucket/nodes/manual.csv"
    = Some public_read.
Proof. vm_compute. repeat split. Qed.

(** A run of C4: [table_a] loaded into the empty bucket. *)
Lemma load_one_new_node_witness :
  faults (s3 fresh) (HeadObject (node_target table_a fresh)) = None
  ∧ objects (s3 fresh) !! node_target table_a fresh = None
  ∧ ∃ acl_log,
      log (s3 (load (one_node table_a) fresh).2)
      = log (s3 fresh)
        ++ HeadObject (node_target table_a fresh)
           :: PutObject (node_target table_a fresh)
                (pd.from_records (node_row table_a))
           :: acl_log
      ∧ Forall is_acl_request acl_log.
Proof.
  split; [reflexivity|]. split; [vm_compute; reflexivity|].
  destruct (load_one_new_node (H:=model) table_a fresh) as (acl_log & Hlog & Hacl & _);
    [reflexivity|vm_compute; reflexivity|].
  exists acl_log. split; [exact Hlog|exact Hacl].
Defined.

(** A run of C5: [table_c] loaded into the bucket whose table holds two
    rows. *)
Lemma load_one_node_appends_witness :
  faults (s3 populated) (HeadObject (node_target table_c populated)) = None
  ∧ faults (s3 populated) (GetObject (node_target table_c populated)) = None
  ∧ objects (s3 populated) !! node_target table_c populated
    = Some stored_table
  ∧ length (pd.rows (body stored_table)) = 2
  ∧ ∃ acl_log,
      log (s3 (load (one_node table_c) populated).2)
      = log (s3 populated)
        ++ HeadObject (node_target table_c populated)
           :: GetObject (node_target table_c populated)
           :: PutObject (node_target table_c populated)
                (pd.append (body stored_table)
                   (pd.from_records (node_row table_c)))
           :: acl_log
      ∧ length (pd.rows (pd.append (body stored_table)
                           (pd.from_records (node_row table_c)))) = 2 + 1.
Proof.
  split; [reflexivity|]. split; [reflexivity|].
  split; [vm_compute; reflexivity|]. split; [reflexivity|].
  destruct (load_one_node_appends (H:=model) table_c populated stored_table 2)
    as (acl_log & Hlog & _ & _ & _ & Hlen & _);
    [reflexivity|reflexivity|vm_compute; reflexivity|reflexivity|].
  exists acl_log. split; [exact Hlog|exact Hlen].
Defined.

(** C6, as stated, fails.  With the service unreachable the existence
    check of the first node raises; [load] raises with it, after that one
    request: the ACL pass does not run, although [load] was invoked.  And
    the pass is not confined to the objects of nodes: where the
    relationship prefix starts with the node prefix, the relationship
    object a first [load] has written, private then, is updated by the
    pass of the next [load]. *)
Lemma aborted_load_runs_no_acl_pass :
  (load tables_and_column unreachable).1
  = inl (OtherException "EndpointConnectionError")
  ∧ log (s3 (load tables_and_column unreachable).2)
    = [ HeadObject "s3://bucket/nodes/Table_0.csv" ]
  ∧ List.filter is_acl_request (log (s3 (load tables_and_column unreachable).2))
    = []
  ∧ acl <$> objects (s3 (load DemoNested.one_relation DemoNested.fresh).2)
              !! "s3://bucket/data/relations/Table_Column_COLUMN.csv"
    = Some private
  ∧ List.filter is_acl_request
      (log (s3 (load empty_record
                  (load DemoNested.one_relation DemoNested.fresh).2).2))
    = [ ListObjects "bucket" "data/";
        ListObjects "bucket" "data/";
        PutObjectAcl "s3://bucket/data/relations/Table_Column_COLUMN.csv"
          public_read ].
Proof. vm_compute. repeat split. Qed.

(** A run of C6 as amended: two nodes and a relationship, loaded into the
    bucket that holds somebody else's object under the node prefix. *)
Lemma acl_pass_between_loops_witness :
  ∃ node_log relation_log,
    log (s3 (load tables_and_column uploaded).2)
    = node_log
      ++ ListObjects "bucket" "nodes/"
         :: ((λ u, PutObjectAcl u public_read)
               <$> under_prefix "bucket" "nodes/"
                     (objects (s3 (for_each (nodes tables_and_column)
                                     load_node uploaded).2)))
         ++ relation_log
    ∧ Forall (row_request_under "bucket" "nodes/") node_log
    ∧ Forall (row_request_under "bucket" "relations/") relation_log.
Proof.
  destruct (acl_pass_between_loops (H:=model) tables_and_column uploaded)
    as (node_log & _ & Hn & Hrest).
  destruct (for_each (nodes tables_and_column) load_node uploaded)
    as [[e|[]] σ1] eqn:Hnodes.
  { vm_compute in Hnodes. discriminate Hnodes. }
  simpl in Hrest.
  destruct Hrest
    as (updated & not_reached & relation_log & Hlog & Hst & _ & Hall & _ & Hr).
  exists node_log, relation_log.
  rewrite (Hall (λ r _, eq_refl)), app_nil_r in Hst.
  split; [|split; [exact Hn|exact Hr]].
  simpl. rewrite Hst. exact Hlog.
Defined.

(** A run of C9 as amended: the bucket holds somebody else's object. *)
Lemma load_empty_record_witness :
  (∀ r, is_acl_request r → faults (s3 uploaded) r = None)
  ∧ (load empty_record uploaded).1 = inr tt
  ∧ log (s3 (load empty_record uploaded).2)
    = log (s3 uploaded)
      ++ ListObjects "bucket" "nodes/"
         :: ((λ u, PutObjectAcl u public_read)
               <$> under_prefix "bucket" "nodes/" (objects (s3 uploaded))).
Proof.
  split; [intros r _; reflexivity|].
  destruct (load_empty_record (H:=model) uploaded) as (Hret & Hlog & _);
    [intros r _; reflexivity|].
  split; [exact Hret|exact Hlog].
Defined.

End Runs.

(** * Further properties *)

(** ** Relations kept by every step *)

Section Respects.

Variable R : State → State → Prop.
Hypothesis R_refl : ∀ σ, R σ σ.
Hypothesis R_trans : ∀ σ1 σ2 σ3, R σ1 σ2 → R σ2 σ3 → R σ1 σ3.

Lemma respects_ret {A} (a : A) : respects R (ret a).
Proof. intros σ. apply R_refl. Qed.

Lemma respects_raise {A} e : respects R (raise (A:=A) e).
Proof. intros σ. apply R_refl. Qed.

Lemma respects_get_self : respects R get_self.
Proof. intros σ. apply R_refl. Qed.

Lemma respects_get_objects : respects R get_objects.
Proof. intros σ. apply R_refl. Qed.

Lemma respects_bind {A B} (m : IO A) (f : A → IO B) :
  respects R m → (∀ a, respects R (f a)) → respects R (m ≫= f).
Proof.
  intros Hm Hf σ. unfold mbind, IO_bind, bind. specialize (Hm σ).
  destruct (m σ) as [[e|a] σ']; simpl in *; [done|].
  eapply R_trans; [done|]. apply Hf.
Qed.

Lemma respects_try_except {A} (m : IO A) (h : Exn → IO A) :
  respects R m → (∀ e, respects R (h e)) → respects R (try_except m h).
Proof.
  intros Hm Hh σ. unfold try_except. specialize (Hm σ).
  destruct (m σ) as [[e|a] σ']; simpl in *; [|done].
  eapply R_trans; [done|]. apply Hh.
Qed.

Lemma respects_for_each {A} (xs : list A) (f : A → IO unit) :
  (∀ x, respects R (f x)) → respects R (for_each xs f).
Proof.
  intros Hf. induction xs as [|x rest IH]; simpl.
  - apply respects_ret.
  - apply respects_bind; [apply Hf|by intros _].
Qed.

(** What the methods are made of, given the steps that touch the state:
    logging a request, and replacing an object whose address satisfies
    [P]. *)
Variable P : string → Prop.
Hypothesis R_logged : ∀ r σ, R σ (logged r σ).
Hypothesis R_stored : ∀ url df σ, P url → R σ (stored url df σ).

Lemma respects_request r : respects R (request r).
Proof. intros σ. rewrite request_run. apply R_logged. Qed.

Lemma respects_to_csv df url : P url → respects R (to_csv df url).
Proof.
  intros HP σ. rewrite to_csv_run. destruct (faults _ _); simpl.
  - apply R_logged.
  - eapply R_trans; [apply R_logged|by apply R_stored].
Qed.

Lemma respects_read_csv url : respects R (read_csv url).
Proof.
  unfold read_csv. apply respects_bind; [apply respects_request|intros _].
  apply respects_bind; [apply respects_get_objects|intros objs].
  destruct (objs !! url); [apply respects_ret|apply respects_raise].
Qed.

Lemma respects_s3_obj_exists {K} row (key : K) dir suffix bucket :
  respects R (_s3_obj_exists row key dir suffix bucket).
Proof. intros σ. rewrite s3_obj_exists_state. apply R_logged. Qed.

Lemma respects_get_s3_object {K} row (key : K) bucket prefix suffix :
  P (s3_url bucket (prefix +:+ suffix +:+ ".csv")) →
  respects R (_get_s3_object row key bucket prefix suffix).
Proof.
  intros HP. unfold _get_s3_object.
  apply respects_bind; [apply respects_s3_obj_exists|intros found].
  case_decide; [|by apply respects_to_csv].
  apply respects_bind; [apply respects_read_csv|intros df].
  by apply respects_to_csv.
Qed.

End Respects.

(** ** Nothing is deleted, no id is forgotten *)

Lemma keeps_refl σ : keeps σ σ.
Proof. by split. Qed.

Lemma keeps_trans σ1 σ2 σ3 : keeps σ1 σ2 → keeps σ2 σ3 → keeps σ1 σ3.
Proof.
  intros [Ho1 Hk1 Hw1] [Ho2 Hk2 Hw2]. split.
  - by etrans.
  - by etrans.
  - auto.
Qed.

Lemma keeps_logged r σ : keeps σ (logged r σ).
Proof. by split. Qed.

Lemma keeps_stored url df σ : True → keeps σ (stored url df σ).
Proof.
  intros _. split; try done. simpl. rewrite dom_insert_L. set_solver.
Qed.

Lemma keeps_with_keys row σ :
  keeps σ (with_keys (_make_key (_keys (self σ)) row).2 σ).
Proof.
  split; simpl.
  - done.
  - apply KeysFacts.make_key_subseteq.
  - apply KeysFacts.wf_make_key.
Qed.

Ltac keeps_side :=
  first [exact keeps_refl | exact keeps_trans
        | exact keeps_logged | exact keeps_stored].

Lemma keeps_Acl_put url a : respects keeps (Acl_put url a).
Proof.
  intros σ. unfold Acl_put, mbind, IO_bind, bind. rewrite request_run.
  destruct (faults _ _); simpl; [apply keeps_logged|].
  split; try done. simpl. by rewrite dom_alter_L.
Qed.

Lemma keeps_update_acls bucket prefix :
  respects keeps (update_acls bucket prefix).
Proof.
  unfold update_acls.
  apply respects_bind; try keeps_side.
  - intros σ. rewrite objects_filter_run.
    destruct (faults _ _); apply keeps_logged.
  - intros objs. apply respects_for_each; try keeps_side.
    intros url. apply keeps_Acl_put.
Qed.

Section KeepsLoad.

Context `{GraphModel}.

Lemma keeps_load_node node : respects keeps (load_node node).
Proof.
  intros σ. rewrite load_node_run. eapply keeps_trans.
  - apply keeps_with_keys.
  - by apply (respects_get_s3_object keeps keeps_refl keeps_trans
               (λ _, True) keeps_logged keeps_stored).
Qed.

Lemma keeps_load_relation relation : respects keeps (load_relation relation).
Proof.
  intros σ. rewrite load_relation_run. eapply keeps_trans.
  - apply keeps_with_keys.
  - by apply (respects_get_s3_object keeps keeps_refl keeps_trans
               (λ _, True) keeps_logged keeps_stored).
Qed.

Lemma keeps_load csv_serializable : respects keeps (load csv_serializable).
Proof.
  unfold load. apply respects_bind; try keeps_side.
  { apply respects_for_each; try keeps_side. apply keeps_load_node. }
  intros _. apply respects_bind; try keeps_side.
  intros this. apply respects_bind; try keeps_side.
  { apply keeps_update_acls. }
  intros _. apply respects_for_each; try keeps_side.
  apply keeps_load_relation.
Qed.

Lemma emits_load csv_serializable :
  emits (λ _, True) (load csv_serializable).
Proof.
  unfold load. apply emits_bind; [|intros _].
  { apply emits_for_each. intros node.
    eapply emits_mono; [|apply emits_load_node]. done. }
  apply emits_bind; [auto with emits|intros this].
  apply emits_bind; [|intros _].
  { eapply emits_mono; [|apply emits_update_acls]. done. }
  apply emits_for_each. intros relation.
  eapply emits_mono; [|apply emits_load_relation]. done.
Qed.

(** X1. Whatever the service answers and whether [load] returns or
    raises, every object address present before is present after:
    [load] never deletes an object. *)
Theorem load_never_deletes (csv_serializable : GraphSerializable) (σ : State) :
  dom (objects (s3 σ))
  ⊆@{gset string} dom (objects (s3 (load csv_serializable σ).2)).
Proof. apply keeps_load. Qed.

(** X2. Whatever the service answers and whether [load] returns or
    raises, every column set recorded in [_keys] before is recorded after
    under the same id, and the bucket and the two prefixes of the loader
    are unchanged. *)
Theorem load_keeps_signature_ids (csv_serializable : GraphSerializable)
    (σ : State) :
  let σ' := (load csv_serializable σ).2 in
  _keys (self σ) ⊆ _keys (self σ')
  ∧ _s3_bucket (self σ') = _s3_bucket (self σ)
  ∧ _node_s3_prefix (self σ') = _node_s3_prefix (self σ)
  ∧ _relation_s3_prefix (self σ') = _relation_s3_prefix (self σ).
Proof.
  intros σ'. destruct (keeps_load csv_serializable σ) as [_ Hk _].
  destruct (emits_load csv_serializable σ) as [Hb Hn Hr _ _].
  by repeat split.
Qed.

(** X3. For a loader made by the constructor and [init], after any
    sequence of [load] calls on any records, with any answers of the
    service and whether the calls return or raise, the ids recorded in
    [_keys] are exactly 0, 1, ..., size-1, each under one column set. *)
Theorem loads_keep_invariant (conf : ConfigTree) (store : S3)
    (records : list GraphSerializable) :
  let keys :=
    _keys (self (loads records {| self := new conf; s3 := store |}).2) in
  Keys.wf keys ∧ Keys.ids keys ≡ₚ seq 0 (size keys).
Proof.
  intros keys.
  assert (Hwf : Keys.wf keys).
  { unfold keys, loads.
    apply (respects_for_each keeps keeps_refl keeps_trans records load
             keeps_load).
    apply KeysFacts.wf_init. }
  split; [done|]. by apply KeysFacts.wf_ids.
Qed.

End KeepsLoad.

(** ** Signature ids and column sets *)

Lemma make_key_lookup keys row :
  (_make_key keys row).2 !! frozenset (dict_keys row)
  = Some (_make_key keys row).1.
Proof.
  unfold _make_key, Keys.setdefault.
  destruct (keys !! _) eqn:Hk; simpl; [done|]. apply lookup_insert_eq.
Qed.

Lemma make_keys_subseteq rows : ∀ keys, keys ⊆ (make_keys keys rows).2.
Proof.
  induction rows as [|r rest IH]; intros keys; simpl; [done|].
  pose proof (KeysFacts.make_key_subseteq keys r) as Hr.
  destruct (_make_key keys r) as [i keys'].
  specialize (IH keys'). destruct (make_keys keys' rest) as [js keys''].
  simpl in *. by etrans.
Qed.

(** The id returned by the [i]-th call is the one the final dictionary
    holds for the column set of the [i]-th row. *)
Lemma make_keys_lookup rows :
  ∀ keys i r, rows !! i = Some r →
  ∃ v, (make_keys keys rows).1 !! i = Some v
     ∧ (make_keys keys rows).2 !! frozenset (dict_keys r) = Some v.
Proof.
  induction rows as [|r0 rest IH]; intros keys i r Hi; [done|].
  simpl. pose proof (make_key_lookup keys r0) as H0.
  destruct (_make_key keys r0) as [i0 keys'].
  pose proof (make_keys_subseteq rest keys') as Hsub.
  specialize (IH keys').
  destruct (make_keys keys' rest) as [js keys'']. simpl in *.
  destruct i as [|i'].
  - injection Hi as <-. exists i0. split; [done|].
    by eapply lookup_weaken.
  - by apply IH.
Qed.

Lemma frozenset_eq_iff (xs ys : list string) :
  frozenset xs = frozenset ys ↔ ∀ c, c ∈ xs ↔ c ∈ ys.
Proof.
  unfold frozenset. split.
  - intros Heq c. rewrite <- !(elem_of_list_to_set (C:=gset string)).
    by rewrite Heq.
  - intros Hc. apply set_eq. intros c.
    by rewrite !elem_of_list_to_set.
Qed.

(** X4. In a run of [_make_key] calls on a new loader, two rows get the
    same id exactly when they have the same column names, in whatever
    order and with whatever values. *)
Theorem ids_identify_columns (rows : list Row) (i j : nat) (ri rj : Row) :
  rows !! i = Some ri →
  rows !! j = Some rj →
  (make_keys Keys.init rows).1 !! i = (make_keys Keys.init rows).1 !! j
  ↔ (∀ c, c ∈ dict_keys ri ↔ c ∈ dict_keys rj).
Proof.
  intros Hi Hj. rewrite <- frozenset_eq_iff.
  destruct (make_keys_lookup rows Keys.init i ri Hi) as (vi & Hvi & Hki).
  destruct (make_keys_lookup rows Keys.init j rj Hj) as (vj & Hvj & Hkj).
  pose proof (KeysFacts.wf_make_keys rows Keys.init KeysFacts.wf_init)
    as [_ _ Hinj].
  rewrite Hvi, Hvj. split.
  - intros [= ->]. by eapply Hinj.
  - intros Heq. rewrite Heq in Hki. congruence.
Qed.

(** ** The existence check *)

(** X5. [_s3_obj_exists] issues exactly one request, the HEAD of the
    target, and changes nothing else.  It returns [True] when the check is
    answered and the object is there, [False] when the object is missing
    or the service answers with code 404, [None] when the service answers
    with any other [ClientError]; it raises only an exception that is not
    a [ClientError]. *)
Theorem existence_check_outcome {K : Type} (row : Row) (key : K)
    (dir suffix bucket : string) (σ : State) :
  let url := s3_url bucket (dir +:+ suffix +:+ ".csv") in
  _s3_obj_exists row key dir suffix bucket σ
  = (match faults (s3 σ) (HeadObject url) with
     | None => inr (Some (bool_decide (is_Some (objects (s3 σ) !! url))))
     | Some (ClientError code) =>
         inr (if decide (code = "404") then Some false else None)
     | Some (OtherException name) => inl (OtherException name)
     end,
     logged (HeadObject url) σ).
Proof.
  intros url.
  destruct (faults (s3 σ) (HeadObject url)) as [[code|name]|] eqn:Hf.
  - by apply s3_obj_exists_client_error.
  - by apply s3_obj_exists_other_exception.
  - destruct (objects (s3 σ) !! url) as [o|] eqn:Ho.
    + rewrite bool_decide_eq_true_2 by done.
      by eapply s3_obj_exists_present.
    + rewrite bool_decide_eq_false_2 by (by intros [??]).
      by apply s3_obj_exists_absent.
Qed.

(** ** One object per row *)

Lemma frame_refl url σ : frame url σ σ.
Proof. by split. Qed.

Lemma frame_trans url σ1 σ2 σ3 :
  frame url σ1 σ2 → frame url σ2 σ3 → frame url σ1 σ3.
Proof. intros [Ho1 Hs1 Hf1] [Ho2 Hs2 Hf2]. split; congruence. Qed.

Lemma frame_logged url r σ : frame url σ (logged r σ).
Proof. by split. Qed.

Lemma frame_stored url u df σ : u = url → frame url σ (stored u df σ).
Proof. intros ->. split; try done. simpl. apply delete_insert_eq. Qed.

(** X6. Whatever the service answers, [_get_s3_object] can change no
    object but the target: the rest of the bucket, the loader and the
    behaviour of the service are as before, and all its requests are
    addressed to the target. *)
Theorem get_s3_object_touches_target_only {K : Type} (row : Row) (key : K)
    (bucket prefix suffix : string) (σ : State) :
  let url := s3_url bucket (prefix +:+ suffix +:+ ".csv") in
  let σ' := (_get_s3_object row key bucket prefix suffix σ).2 in
  delete url (objects (s3 σ')) = delete url (objects (s3 σ))
  ∧ self σ' = self σ
  ∧ faults (s3 σ') = faults (s3 σ)
  ∧ ∃ l, log (s3 σ') = log (s3 σ) ++ l ∧ Forall (object_request url) l.
Proof.
  intros url σ'.
  destruct (respects_get_s3_object (frame url) (frame_refl url)
              (frame_trans url) (λ u, u = url) (frame_logged url)
              (frame_stored url) row key bucket prefix suffix eq_refl σ)
    as [Ho Hs Hf].
  destruct (emits_get_s3_object row key bucket prefix suffix σ)
    as [_ _ _ _ Hl].
  by repeat split.
Qed.

(** ** The effect of the ACL pass *)

Lemma foldl_alter_lookup (f : S3Object → S3Object) (urls : list string) :
  (∀ o, f (f o) = f o) →
  ∀ (m : gmap string S3Object) u,
    foldl (λ m' x, alter f x m') m urls !! u
    = if decide (u ∈ urls) then f <$> m !! u else m !! u.
Proof.
  intros Hidem. induction urls as [|x rest IH]; intros m u.
  - destruct (decide (u ∈ [])) as [Hin|_]; [|done].
    by apply elem_of_nil in Hin.
  - change (foldl (λ m' x0, alter f x0 m') m (x :: rest))
      with (foldl (λ m' x0, alter f x0 m') (alter f x m) rest).
    rewrite IH. rewrite lookup_alter.
    destruct (decide (x = u)) as [->|Hne];
      destruct (decide (u ∈ rest)) as [Hin|Hout];
      destruct (decide (u ∈ _ :: rest)) as [Hin'|Hout']; try done.
    + destruct (m !! u); simpl; [|done]. by rewrite Hidem.
    + exfalso. apply Hout'. by apply list_elem_of_further.
    + exfalso. apply Hout'. apply list_elem_of_here.
    + exfalso. apply Hout'. by apply list_elem_of_further.
    + exfalso. apply elem_of_cons in Hin' as [->|?]; done.
Qed.

Lemma elem_of_under_prefix bucket prefix (objs : gmap string S3Object) u :
  u ∈ under_prefix bucket prefix objs
  ↔ String.prefix (s3_url bucket prefix) u = true ∧ is_Some (objs !! u).
Proof.
  unfold under_prefix. rewrite list_elem_of_filter, list_elem_of_fmap.
  split.
  - intros [Hp [[k o] [-> Hin]]]. split; [done|].
    apply elem_of_map_to_list in Hin. by exists o.
  - intros [Hp [o Ho]]. split; [done|]. exists (u, o). split; [done|].
    by apply elem_of_map_to_list.
Qed.

Lemma published_lookup bucket prefix (objs : gmap string S3Object) u :
  published bucket prefix objs !! u
  = (λ o, if String.prefix (s3_url bucket prefix) u
          then with_acl public_read o else o) <$> objs !! u.
Proof.
  unfold published. rewrite map_lookup_imap. by destruct (objs !! u).
Qed.

Lemma for_each_acl_put_objects (urls : list string) :
  ∀ σ, (∀ r, is_acl_request r → faults (s3 σ) r = None) →
  ∃ σ',
    for_each urls (λ obj, Acl_put obj public_read) σ = (inr tt, σ')
    ∧ objects (s3 σ')
      = foldl (λ m x, alter (with_acl public_read) x m) (objects (s3 σ)) urls
    ∧ faults (s3 σ') = faults (s3 σ)
    ∧ self σ' = self σ.
Proof.
  induction urls as [|u rest IH]; intros σ Hf.
  - by exists σ.
  - assert (Hput : ∃ σ1, Acl_put u public_read σ = (inr tt, σ1)
               ∧ objects (s3 σ1)
                 = alter (with_acl public_read) u (objects (s3 σ))
               ∧ faults (s3 σ1) = faults (s3 σ)
               ∧ self σ1 = self σ).
    { unfold Acl_put, mbind, IO_bind, bind. rewrite request_run.
      rewrite Hf by done. simpl. eexists. split; [done|]. by repeat split. }
    destruct Hput as (σ1 & Hrun & Hobj & Hfaults & Hself).
    destruct (IH σ1) as (σ' & Hrun' & Hobj' & Hfaults' & Hself').
    { intros r Hr. rewrite Hfaults. by apply Hf. }
    exists σ'. split; [|split; [|split]].
    + simpl. by erewrite bind_return by exact Hrun.
    + rewrite Hobj', Hobj. done.
    + congruence.
    + congruence.
Qed.

Lemma update_acls_run bucket prefix σ :
  (∀ r, is_acl_request r → faults (s3 σ) r = None) →
  ∃ σ',
    update_acls bucket prefix σ = (inr tt, σ')
    ∧ objects (s3 σ') = published bucket prefix (objects (s3 σ))
    ∧ faults (s3 σ') = faults (s3 σ)
    ∧ self σ' = self σ.
Proof.
  intros Hf.
  destruct (for_each_acl_put_objects
              (under_prefix bucket prefix (objects (s3 σ)))
              (logged (ListObjects bucket prefix) σ))
    as (σ' & Hrun & Hobj & Hfaults & Hself); [done|].
  exists σ'. split; [|split; [|split]]; try done.
  - unfold update_acls. erewrite bind_return; [exact Hrun|].
    rewrite objects_filter_run. by rewrite Hf.
  - rewrite Hobj. simpl. apply map_eq. intros u.
    rewrite foldl_alter_lookup by done. rewrite published_lookup.
    destruct (decide (u ∈ _)) as [Hin|Hout].
    + apply elem_of_under_prefix in Hin as [-> _]. done.
    + destruct (objects (s3 σ) !! u) as [o|] eqn:Ho; [|done]. simpl.
      destruct (String.prefix (s3_url bucket prefix) u) eqn:Hp; [|done].
      exfalso. apply Hout. apply elem_of_under_prefix. by split.
Qed.

(** X7. When the service refuses no request of the pass, [update_acls]
    returns normally and leaves the bucket with the same objects and
    tables: every object whose address starts with the prefix is
    public-read, every other object has the ACL it had. *)
Theorem update_acls_publishes (bucket prefix : string) (σ : State) :
  (∀ r, is_acl_request r → faults (s3 σ) r = None) →
  (update_acls bucket prefix σ).1 = inr tt
  ∧ ∀ u, objects (s3 (update_acls bucket prefix σ).2) !! u
         = (λ o, if String.prefix (s3_url bucket prefix) u
                 then with_acl public_read o else o)
           <$> objects (s3 σ) !! u.
Proof.
  intros Hf.
  destruct (update_acls_run bucket prefix σ Hf) as (σ' & Hrun & Hobj & _).
  rewrite Hrun. simpl. split; [done|]. intros u.
  rewrite Hobj. apply published_lookup.
Qed.

(** X8. When the service refuses no request of the pass, a second
    [update_acls] over the same prefix changes no object. *)
Theorem update_acls_idempotent (bucket prefix : string) (σ : State) :
  (∀ r, is_acl_request r → faults (s3 σ) r = None) →
  let σ1 := (update_acls bucket prefix σ).2 in
  (update_acls bucket prefix σ1).1 = inr tt
  ∧ objects (s3 (update_acls bucket prefix σ1).2) = objects (s3 σ1).
Proof.
  intros Hf σ1.
  destruct (update_acls_run bucket prefix σ Hf)
    as (σ' & Hrun & Hobj & Hfaults & _).
  assert (Hσ1 : σ1 = σ') by (unfold σ1; by rewrite Hrun). rewrite Hσ1.
  destruct (update_acls_run bucket prefix σ')
    as (σ'' & Hrun' & Hobj' & _).
  { intros r Hr. rewrite Hfaults. by apply Hf. }
  rewrite Hrun'. simpl. split; [done|].
  rewrite Hobj', Hobj. apply map_eq. intros u.
  rewrite !published_lookup.
  destruct (objects (s3 σ) !! u) as [o|]; [|done]. simpl.
  by destruct (String.prefix _ _).
Qed.

(** ** The object of a node row is one the pass lists *)

Lemma to_csv_returned df url σ σ' :
  to_csv df url σ = (inr tt, σ') → is_Some (objects (s3 σ') !! url).
Proof.
  rewrite to_csv_run. destruct (faults _ _); [done|].
  intros [= <-]. simpl. rewrite lookup_insert_eq. by eexists.
Qed.

Lemma get_s3_object_returned {K} row (key : K) bucket prefix suffix σ σ' :
  _get_s3_object row key bucket prefix suffix σ = (inr tt, σ') →
  is_Some (objects (s3 σ') !! s3_url bucket (prefix +:+ suffix +:+ ".csv")).
Proof.
  unfold _get_s3_object. intros Hrun.
  destruct (_s3_obj_exists row key prefix suffix bucket σ)
    as [[e|found] σ0] eqn:Hex.
  { erewrite bind_raise in Hrun by exact Hex. done. }
  erewrite bind_return in Hrun by exact Hex.
  case_decide.
  - destruct (read_csv (s3_url bucket (prefix +:+ suffix +:+ ".csv")) σ0)
      as [[e|df] σ1] eqn:Hread.
    + erewrite bind_raise in Hrun by exact Hread. done.
    + erewrite bind_return in Hrun by exact Hread.
      by eapply to_csv_returned.
  - by eapply to_csv_returned.
Qed.

Section Listed.

Context `{GraphModel}.

Lemma node_target_prefix (node : GraphNode) (σ : State) :
  String.prefix (s3_url (_s3_bucket (self σ)) (_node_s3_prefix (self σ)))
    (node_target node σ) = true.
Proof.
  unfold node_target, node_object_key. rewrite s3_url_app. apply prefix_app.
Qed.

(** X9. When the body of the node loop returns normally for a node, the
    object of the node's row is in the bucket under the node prefix: the
    listing of the node prefix that the ACL pass starts with, made from
    the state the body left, returns its address. *)
Theorem load_node_object_is_listed (node : GraphNode) (σ σ' : State) :
  load_node node σ = (inr tt, σ') →
  let bucket := _s3_bucket (self σ') in
  let prefix := _node_s3_prefix (self σ') in
  is_Some (objects (s3 σ') !! node_target node σ)
  ∧ node_target node σ ∈ under_prefix bucket prefix (objects (s3 σ'))
  ∧ ∀ listed σ'',
      objects_filter bucket prefix σ' = (inr listed, σ'') →
      node_target node σ ∈ listed.
Proof.
  intros Hrun bucket prefix.
  pose proof (emits_load_node node σ) as Hext.
  rewrite Hrun in Hext. destruct Hext as [Hb Hp _ _ _]. simpl in Hb, Hp.
  rewrite load_node_run in Hrun. apply get_s3_object_returned in Hrun.
  rewrite node_key_assoc in Hrun.
  assert (Hin : node_target node σ
                ∈ under_prefix bucket prefix (objects (s3 σ'))).
  { apply elem_of_under_prefix. split; [|exact Hrun].
    unfold bucket, prefix. rewrite Hb, Hp. apply node_target_prefix. }
  split; [exact Hrun|]. split; [exact Hin|].
  intros listed σ'' Hlist. rewrite objects_filter_run in Hlist.
  destruct (faults _ _); [done|]. by injection Hlist as <- _.
Qed.

(** ** A load that returned has published the node prefix *)

Lemma for_each_acl_put_returned (urls : list string) :
  ∀ σ σ', for_each urls (λ obj, Acl_put obj public_read) σ = (inr tt, σ') →
    objects (s3 σ')
    = foldl (λ m x, alter (with_acl public_read) x m) (objects (s3 σ)) urls.
Proof.
  induction urls as [|u rest IH]; intros σ σ' Hrun.
  - simpl in Hrun. by injection Hrun as <-.
  - simpl in Hrun.
    destruct (Acl_put u public_read σ) as [[e|[]] σ1] eqn:Hput.
    + erewrite bind_raise in Hrun by exact Hput. done.
    + erewrite bind_return in Hrun by exact Hput.
      rewrite (IH _ _ Hrun). rewrite Acl_put_run in Hput.
      destruct (faults _ _); [done|]. by injection Hput as <-.
Qed.

Lemma publish_listed bucket prefix (objs : gmap string S3Object) :
  foldl (λ m x, alter (with_acl public_read) x m) objs
    (under_prefix bucket prefix objs)
  = published bucket prefix objs.
Proof.
  apply map_eq. intros u.
  rewrite foldl_alter_lookup by done. rewrite published_lookup.
  destruct (decide (u ∈ _)) as [Hin|Hout].
  - apply elem_of_under_prefix in Hin as [-> _]. done.
  - destruct (objs !! u) as [o|] eqn:Ho; [|done]. simpl.
    destruct (String.prefix (s3_url bucket prefix) u) eqn:Hp; [|done].
    exfalso. apply Hout. apply elem_of_under_prefix. by split.
Qed.

Lemma update_acls_returned bucket prefix σ σ' :
  update_acls bucket prefix σ = (inr tt, σ') →
  objects (s3 σ') = published bucket prefix (objects (s3 σ)).
Proof.
  unfold update_acls. intros Hrun.
  destruct (faults (s3 σ) (ListObjects bucket prefix)) as [e|] eqn:Hf.
  - erewrite bind_raise in Hrun by (by rewrite objects_filter_run, Hf).
    done.
  - erewrite bind_return in Hrun by (by rewrite objects_filter_run, Hf).
    rewrite (for_each_acl_put_returned _ _ _ Hrun). simpl.
    apply publish_listed.
Qed.

(** X11. When [load] of a record without relationships returns normally,
    every object then in the bucket whose address starts with the node
    prefix is public-read, whether this [load] wrote it or not. *)
Theorem load_publishes_node_prefix (node_list : list GraphNode) (σ : State)
    (u : string) (o : S3Object) :
  (load {| nodes := node_list; relations := [] |} σ).1 = inr tt →
  objects (s3 (load {| nodes := node_list; relations := [] |} σ).2) !! u
  = Some o →
  String.prefix (s3_url (_s3_bucket (self σ)) (_node_s3_prefix (self σ))) u
  = true →
  acl o = public_read.
Proof.
  intros Hret Ho Hp.
  pose proof (emits_for_each is_row_request node_list load_node
                emits_load_node σ) as Hext.
  revert Hret Ho. unfold load. simpl.
  destruct (for_each node_list load_node σ) as [[e|[]] σ1] eqn:Hnodes.
  { erewrite bind_raise by exact Hnodes. done. }
  erewrite bind_return by exact Hnodes.
  erewrite (bind_return get_self) by reflexivity.
  destruct Hext as [Hb Hn _ _ _]. simpl in Hb, Hn.
  destruct (update_acls (_s3_bucket (self σ1)) (_node_s3_prefix (self σ1)) σ1)
    as [[e|[]] σ2] eqn:Hacl.
  { erewrite bind_raise by exact Hacl. done. }
  erewrite bind_return by exact Hacl. simpl. intros _ Ho.
  rewrite (update_acls_returned _ _ _ _ Hacl), published_lookup, Hb, Hn, Hp
    in Ho.
  destruct (objects (s3 σ1) !! u); simpl in Ho; [|done].
  by injection Ho as <-.
Qed.

End Listed.

(** ** [init] *)

Lemma fallback_lookup (conf : pyhocon.ConfigTree) k :
  k ∈ required_keys →
  pyhocon.with_fallback conf _DEFAULT_CONFIG !! k = conf !! k.
Proof.
  intros Hk. unfold pyhocon.with_fallback. rewrite lookup_union.
  assert (Hd : _DEFAULT_CONFIG !! k = None).
  { unfold required_keys in Hk.
    repeat (apply elem_of_cons in Hk as [->|Hk]; [by vm_compute|]).
    by apply elem_of_nil in Hk. }
  rewrite Hd. by destruct (conf !! k).
Qed.

Lemma required_bucket : NODE_S3_BUCKET ∈ required_keys.
Proof. apply list_elem_of_here. Qed.

Lemma required_node_prefix : NODE_S3_PREFIX ∈ required_keys.
Proof. apply list_elem_of_further, list_elem_of_here. Qed.

Lemma required_relation_prefix : RELATION_S3_PREFIX ∈ required_keys.
Proof. do 2 apply list_elem_of_further. apply list_elem_of_here. Qed.

(** [init] with the lookups of the three options made explicit. *)
Lemma init_run (conf : pyhocon.ConfigTree) σ :
  init conf σ
  = (v ← pyhocon.get_string conf NODE_S3_BUCKET;
     set_s3_bucket v;;
     v ← pyhocon.get_string conf NODE_S3_PREFIX;
     set_node_s3_prefix v;;
     v ← pyhocon.get_string conf RELATION_S3_PREFIX;
     set_relation_s3_prefix v) σ.
Proof.
  unfold init, pyhocon.get_string. cbn zeta.
  rewrite (fallback_lookup conf NODE_S3_BUCKET required_bucket).
  rewrite (fallback_lookup conf NODE_S3_PREFIX required_node_prefix).
  by rewrite (fallback_lookup conf RELATION_S3_PREFIX
                required_relation_prefix).
Qed.

(** X13. With the bucket and the two prefixes given as strings, [init]
    returns normally, sets the three attributes to them and touches
    nothing else: the signature ids recorded so far are kept, and the
    store is not contacted.  On a loader that has recorded no id yet the
    result is the configured new loader. *)
Theorem init_configures (conf : pyhocon.ConfigTree) (b p r : string)
    (σ : State) :
  conf !! NODE_S3_BUCKET = Some (pyhocon.Str b) →
  conf !! NODE_S3_PREFIX = Some (pyhocon.Str p) →
  conf !! RELATION_S3_PREFIX = Some (pyhocon.Str r) →
  init conf σ
  = (inr tt,
     {| self := {| _keys := _keys (self σ);
                   _s3_bucket := b;
                   _node_s3_prefix := p;
                   _relation_s3_prefix := r |};
        s3 := s3 σ |})
  ∧ (_keys (self σ) = Keys.init →
     self (init conf σ).2
     = new {| node_s3_bucket := b; node_s3_prefix := p;
              relations_s3_prefix := r |}).
Proof.
  intros Hb Hp Hr.
  assert (Hrun : init conf σ
    = (inr tt,
       {| self := {| _keys := _keys (self σ);
                     _s3_bucket := b;
                     _node_s3_prefix := p;
                     _relation_s3_prefix := r |};
          s3 := s3 σ |})).
  { rewrite init_run. unfold pyhocon.get_string. by rewrite Hb, Hp, Hr. }
  split; [done|]. intros Hk. rewrite Hrun. simpl. unfold new. simpl.
  by rewrite Hk.
Qed.

(** X14. If the bucket or one of the two prefixes is absent from the
    configuration, [init] raises; the signature ids and the store are as
    before. *)
Theorem init_missing_option (conf : pyhocon.ConfigTree) (k : string)
    (σ : State) :
  k ∈ required_keys →
  conf !! k = None →
  (∃ e, (init conf σ).1 = inl e)
  ∧ _keys (self (init conf σ).2) = _keys (self σ)
  ∧ s3 (init conf σ).2 = s3 σ.
Proof.
  intros Hk Hnone. rewrite init_run. unfold pyhocon.get_string.
  unfold required_keys in Hk.
  repeat (apply elem_of_cons in Hk as [->|Hk]);
    [| | |by apply elem_of_nil in Hk];
    rewrite ?Hnone;
    repeat (match goal with
            | |- context [conf !! ?key] =>
                destruct (conf !! key) as [[?|?]|]
            end);
    (split; [by eexists|by split]).
Qed.

(** X15. [init] reads the bucket and the two prefixes and nothing else
    of the configuration: two configurations that agree on these three
    options configure the loader alike, whatever they say about
    [force_create_directory], [delete_created_directories] or any other
    option. *)
Theorem init_reads_required_only (conf1 conf2 : pyhocon.ConfigTree)
    (σ : State) :
  (∀ k, k ∈ required_keys → conf1 !! k = conf2 !! k) →
  init conf1 σ = init conf2 σ.
Proof.
  intros Heq. rewrite !init_run. unfold pyhocon.get_string.
  rewrite (Heq NODE_S3_BUCKET required_bucket).
  rewrite (Heq NODE_S3_PREFIX required_node_prefix).
  by rewrite (Heq RELATION_S3_PREFIX required_relation_prefix).
Qed.

(** * Further runs on the small graph model *)

Section MoreRuns.

Import Demo DemoConf.

(** A run of X4: the first two of four rows have the same columns in
    another order. *)
Lemma ids_identify_columns_witness :
  let rows : list Row :=
    [ [("KEY", "a"); ("LABEL", "Table")];
      [("LABEL", "Table"); ("KEY", "b")];
      [("KEY", "c"); ("LABEL", "Table"); ("name", "n")];
      [("KEY", "d"); ("LABEL", "User")] ] in
  rows !! 0 = Some [("KEY", "a"); ("LABEL", "Table")]
  ∧ rows !! 1 = Some [("LABEL", "Table"); ("KEY", "b")]
  ∧ ((make_keys Keys.init rows).1 !! 0 = (make_keys Keys.init rows).1 !! 1
     ↔ (∀ c, c ∈ dict_keys [("KEY", "a"); ("LABEL", "Table")]
             ↔ c ∈ dict_keys [("LABEL", "Table"); ("KEY", "b")])).
Proof.
  intros rows. split; [reflexivity|]. split; [reflexivity|].
  apply (ids_identify_columns rows 0 1); reflexivity.
Defined.

(** A run of X7: the pass over [nodes/] on the bucket that holds somebody
    else's object. *)
Lemma update_acls_publishes_witness :
  (∀ r, is_acl_request r → faults (s3 uploaded) r = None)
  ∧ (update_acls "bucket" "nodes/" uploaded).1 = inr tt
  ∧ ∀ u, objects (s3 (update_acls "bucket" "nodes/" uploaded).2) !! u
         = (λ o, if String.prefix (s3_url "bucket" "nodes/") u
                 then with_acl public_read o else o)
           <$> objects (s3 uploaded) !! u.
Proof.
  split; [intros r _; reflexivity|].
  apply (update_acls_publishes "bucket" "nodes/" uploaded).
  intros r _. reflexivity.
Defined.

(** A run of X8: a second pass over [nodes/]. *)
Lemma update_acls_idempotent_witness :
  (∀ r, is_acl_request r → faults (s3 uploaded) r = None)
  ∧ (update_acls "bucket" "nodes/"
       (update_acls "bucket" "nodes/" uploaded).2).1 = inr tt
  ∧ objects (s3 (update_acls "bucket" "nodes/"
                   (update_acls "bucket" "nodes/" uploaded).2).2)
    = objects (s3 (update_acls "bucket" "nodes/" uploaded).2).
Proof.
  split; [intros r _; reflexivity|].
  apply (update_acls_idempotent "bucket" "nodes/" uploaded).
  intros r _. reflexivity.
Defined.

(** A run of X9: [table_a] loaded into the empty bucket. *)
Lemma load_node_object_is_listed_witness :
  load_node table_a fresh = (inr tt, (load_node table_a fresh).2)
  ∧ "s3://bucket/nodes/Table_0.csv"
    ∈ under_prefix "bucket" "nodes/"
        (objects (s3 (load_node table_a fresh).2)).
Proof.
  assert (Hrun : load_node table_a fresh
                 = (inr tt, (load_node table_a fresh).2)).
  { vm_compute. reflexivity. }
  split; [exact Hrun|].
  destruct (load_node_object_is_listed (H:=model) table_a fresh _ Hrun)
    as (_ & Hin & _).
  exact Hin.
Defined.

(** A run of X11: a node is loaded into the bucket that holds somebody
    else's private object under the node prefix. *)
Lemma load_publishes_node_prefix_witness :
  (load (one_node table_a) uploaded).1 = inr tt
  ∧ objects (s3 (load (one_node table_a) uploaded).2)
      !! "s3://bucket/nodes/manual.csv"
    = Some {| body := pd.from_records [("KEY", "db://m")];
              acl := public_read |}
  ∧ String.prefix (s3_url "bucket" "nodes/") "s3://bucket/nodes/manual.csv"
    = true
  ∧ acl {| body := pd.from_records [("KEY", "db://m")]; acl := public_read |}
    = public_read.
Proof.
  split; [vm_compute; reflexivity|].
  split; [vm_compute; reflexivity|]. split; [reflexivity|].
  apply (load_publishes_node_prefix (H:=model) [table_a] uploaded
           "s3://bucket/nodes/manual.csv").
  - vm_compute. reflexivity.
  - vm_compute. reflexivity.
  - reflexivity.
Defined.

(** A run of X13: the complete configuration, on a new loader. *)
Lemma init_configures_witness :
  complete !! NODE_S3_BUCKET = Some (pyhocon.Str "bucket")
  ∧ complete !! NODE_S3_PREFIX = Some (pyhocon.Str "nodes/")
  ∧ complete !! RELATION_S3_PREFIX = Some (pyhocon.Str "relations/")
  ∧ init complete fresh
    = (inr tt,
       {| self := {| _keys := _keys (self fresh);
                     _s3_bucket := "bucket";
                     _node_s3_prefix := "nodes/";
                     _relation_s3_prefix := "relations/" |};
          s3 := s3 fresh |}).
Proof.
  split; [vm_compute; reflexivity|]. split; [vm_compute; reflexivity|].
  split; [vm_compute; reflexivity|].
  apply (init_configures complete "bucket" "nodes/" "relations/" fresh);
    vm_compute; reflexivity.
Defined.

(** A run of X14: the relationship prefix is not configured. *)
Lemma init_missing_option_witness :
  RELATION_S3_PREFIX ∈ required_keys
  ∧ without_relations !! RELATION_S3_PREFIX = None
  ∧ (∃ e, (init without_relations fresh).1 = inl e)
  ∧ _keys (self (init without_relations fresh).2) = _keys (self fresh)
  ∧ s3 (init without_relations fresh).2 = s3 fresh.
Proof.
  assert (Hk : RELATION_S3_PREFIX ∈ required_keys).
  { apply (bool_decide_unpack _). vm_compute. exact I. }
  split; [exact Hk|]. split; [vm_compute; reflexivity|].
  apply (init_missing_option without_relations RELATION_S3_PREFIX fresh).
  - exact Hk.
  - vm_compute. reflexivity.
Defined.

(** A run of X15: the flags set against their defaults. *)
Lemma init_reads_required_only_witness :
  (∀ k, k ∈ required_keys → complete !! k = with_flags !! k)
  ∧ init complete fresh = init with_flags fresh.
Proof.
  assert (Heq : ∀ k, k ∈ required_keys → complete !! k = with_flags !! k).
  { intros k Hk. unfold required_keys in Hk.
    repeat (apply elem_of_cons in Hk as [->|Hk];
            [vm_compute; reflexivity|]).
    by apply elem_of_nil in Hk. }
  split; [exact Heq|].
  apply (init_reads_required_only complete with_flags fresh). exact Heq.
Defined.

End MoreRuns.
